(** * fe-koala-admin: grading, test-mode session and village form

    A shallow embedding of the answer-checking core of the admin dashboard
    (TestModePage: [checkAnswer], [handleSubmitAnswer], [handleNextQuestion],
    [handleRestart], [finalScore], [passed]), of the ordering editor
    (OrderingForm: [addItem], [removeItem]) and of the village form
    (VillagesPage: [isFirstVillage], [handleSubmit]), followed by the
    properties of the specification that concern them.  A second part
    embeds the question components that build the answers (StrikeOutQuestion,
    OrderingQuestion, SwipeDecisionQuestion, MatchingQuestion), the header of
    the test, the arrows of the ordering editor, the edit dialog of a
    village and the calls of api/buildings.ts, with the properties that
    relate them to the grading and to the form.

    Conventions of the embedding.
    - JavaScript strings are sequences of 16-bit code units; the embedding
      has the strings whose code units are below 256 (ASCII and Latin-1),
      one [ascii] per code unit.  On these [toLowerCase] and [trim] are the
      built-ins: the upper-case letters are A-Z and U+00C0-U+00DE without
      the sign U+00D7, and the white space is TAB, LF, VT, FF, CR, SP and
      U+00A0.
    - JavaScript numbers are IEEE binary64 doubles.  The numbers that are
      integers by construction (ids, word indices, counts, grid coordinates,
      costs, pass scores) are modelled by [Z]: [VNumber n] is the double of
      the integer [n].  [VDouble x] is an arbitrary double: the values that
      the slider form stores and the slider reports may have decimals.  The
      places where the program computes with numbers that need not be
      integers (the test of slider_value, the percentage of [finalScore],
      the distance of graph_point) are modelled in binary64 with
      round-to-nearest-even, through the Standard Library's [SpecFloat].
    - TypeScript's [as] casts are erased at run time.  The embedding follows
      the runs in which every cast meets a value of the annotated type and
      answers [IllTyped] otherwise (JavaScript would then throw a TypeError or
      coerce). *)

From Stdlib Require Import ZArith SpecFloat Ascii String DecimalString.
From stdpp Require Import gmap zmap strings list.

#[local] Set Warnings "-register-all".
#[local] Open Scope Z_scope.

(** ** The JavaScript runtime the pages rely on *)

Module JS.

(** *** Outcomes *)

Inductive outcome (A : Type) : Type :=
| Returned (a : A)
| IllTyped.
Arguments Returned {A} a.
Arguments IllTyped {A}.

Definition bind {A B : Type} (m : outcome A) (k : A → outcome B) : outcome B :=
  match m with
  | Returned a => k a
  | IllTyped => IllTyped
  end.

Notation "'let*' x ':=' m 'in' k" := (bind m (λ x, k))
  (at level 10, x name, m at level 100, k at level 200).

(** [mapM f l]: the casts of an array, element by element. *)
Fixpoint mapM {A B : Type} (f : A → outcome B) (l : list A) : outcome (list B) :=
  match l with
  | [] => Returned []
  | x :: l' =>
      let* y := f x in
      let* ys := mapM f l' in
      Returned (y :: ys)
  end.

(** *** Strings *)

Definition dquote : ascii := ascii_of_N 34.
Definition backslash : ascii := ascii_of_N 92.

(** String.prototype.toLowerCase, one code unit below 256: the upper-case
    letters A-Z, and U+00C0-U+00DE without the multiplication sign U+00D7,
    have their lower case 32 places further; no other code unit below 256
    changes. *)
Definition upper_case (n : N) : bool :=
  (((65 <=? n) && (n <=? 90))
   || ((192 <=? n) && (n <=? 222) && negb (n =? 215)))%N.

Definition lower_unit (c : ascii) : ascii :=
  let n := N_of_ascii c in
  if upper_case n then ascii_of_N (n + 32) else c.

Fixpoint toLowerCase (s : string) : string :=
  match s with
  | EmptyString => EmptyString
  | String c s' => String (lower_unit c) (toLowerCase s')
  end.

(** String.prototype.includes(searchString): some position of [s] starts
    with [searchString]. *)
Fixpoint includes (s searchString : string) : bool :=
  String.prefix searchString s
  || match s with
     | EmptyString => false
     | String _ s' => includes s' searchString
     end.

(** String.prototype.trim removes WhiteSpace and LineTerminator; below 256
    these are TAB, LF, VT, FF, CR, SP and the no-break space U+00A0. *)
Definition is_white_space (c : ascii) : bool :=
  let n := N_of_ascii c in
  (((9 <=? n) && (n <=? 13)) || (n =? 32) || (n =? 160))%N.

Fixpoint trimStart (s : string) : string :=
  match s with
  | EmptyString => EmptyString
  | String c s' => if is_white_space c then trimStart s' else s
  end.

Definition trim (s : string) : string :=
  String.rev (trimStart (String.rev (trimStart s))).

(** *** JSON.stringify on arrays of strings *)

Definition hex_digit (n : N) : ascii :=
  if (n <? 10)%N then ascii_of_N (48 + n) else ascii_of_N (87 + n).

(** QuoteJSONString, one character: the two-character escapes, [\u00xx] for
    the other control characters, the character itself otherwise. *)
Definition quote_char (c : ascii) : string :=
  let n := N_of_ascii c in
  if (n =? 34)%N then String backslash (String dquote EmptyString)
  else if (n =? 92)%N then String backslash (String backslash EmptyString)
  else if (n =? 8)%N then String backslash "b"
  else if (n =? 12)%N then String backslash "f"
  else if (n =? 10)%N then String backslash "n"
  else if (n =? 13)%N then String backslash "r"
  else if (n =? 9)%N then String backslash "t"
  else if (n <? 32)%N then
    String backslash
      (String "u" (String "0" (String "0"
         (String (hex_digit (n / 16)) (String (hex_digit (n mod 16)) EmptyString)))))
  else String c EmptyString.

Fixpoint quote_body (s : string) : string :=
  match s with
  | EmptyString => EmptyString
  | String c s' => quote_char c +:+ quote_body s'
  end.

Definition QuoteJSONString (s : string) : string :=
  String dquote (quote_body s +:+ String dquote EmptyString).

(** The elements of an array, separated by commas. *)
Fixpoint join_comma (parts : list string) : string :=
  match parts with
  | [] => EmptyString
  | [p] => p
  | p :: rest => p +:+ String "," (join_comma rest)
  end.

Definition JSON_stringify (a : list string) : string :=
  String "[" (join_comma (QuoteJSONString <$> a) +:+ "]").

(** *** Numbers *)

Definition prec : Z := 53.
Definition emax : Z := 1024.

(** The double that holds the integer [z] (rounded when [z] needs more than
    53 bits). *)
Definition of_int (z : Z) : spec_float := binary_normalize prec emax z 0 false.

Definition div (x y : spec_float) : spec_float := SFdiv prec emax x y.
Definition mul (x y : spec_float) : spec_float := SFmul prec emax x y.
Definition add (x y : spec_float) : spec_float := SFadd prec emax x y.
Definition sub (x y : spec_float) : spec_float := SFsub prec emax x y.
Definition sqrt (x : spec_float) : spec_float := SFsqrt prec emax x.

(** An integral double, as Math.round returns it (the sign of zero is not
    kept: no comparison sees it). *)
Inductive integral : Type :=
| Int (z : Z)
| Infinity (negative : bool)
| NaN.

(** Math.round: the integer nearest to [x], ties towards +Infinity, that is
    floor(x + 1/2) computed exactly. *)
Definition Math_round (x : spec_float) : integral :=
  match x with
  | S754_zero _ => Int 0
  | S754_infinity s => Infinity s
  | S754_nan => NaN
  | S754_finite s m e =>
      let sm := if s then Z.neg m else Z.pos m in
      if 0 <=? e then Int (sm * 2 ^ e)
      else Int ((2 * sm + 2 ^ (- e)) / 2 ^ (- e + 1))
  end.

(** [x >= t] for an integral double [x] and an integer [t]. *)
Definition ge (x : integral) (t : Z) : bool :=
  match x with
  | Int z => t <=? z
  | Infinity negative => negb negative
  | NaN => false
  end.

(** *** Values *)

(** The values of the typed fragment: JSON data, and the Set and Map objects
    that the question components build.  [VSet elems] is [new Set(elems)] and
    [VMap entries] is [new Map(entries)].  A number is [VNumber n], the
    double of the integer [n], or [VDouble x], any double. *)
Inductive value : Type :=
| VUndefined
| VNull
| VBool (b : bool)
| VNumber (n : Z)
| VDouble (x : spec_float)
| VString (s : string)
| VArray (items : list value)
| VObject (fields : gmap string value)
| VSet (elems : list Z)
| VMap (entries : list (string * string)).

(** Property read [o.f] on a record: [undefined] when absent. *)
Definition get (o : gmap string value) (f : string) : value :=
  default VUndefined (o !! f).

(** ToBoolean. *)
Definition truthy (v : value) : bool :=
  match v with
  | VUndefined | VNull => false
  | VBool b => b
  | VNumber n => negb (n =? 0)
  | VDouble x => match x with S754_zero _ | S754_nan => false | _ => true end
  | VString s => negb (String.eqb s EmptyString)
  | _ => true
  end.

(** [a === b] where [b] is annotated with a primitive type: equal types and
    equal values; an object [a] is never equal to a primitive. *)
Definition strict_equals (a b : value) : outcome bool :=
  match b with
  | VUndefined => Returned (match a with VUndefined => true | _ => false end)
  | VNull => Returned (match a with VNull => true | _ => false end)
  | VBool y => Returned (match a with VBool x => Bool.eqb x y | _ => false end)
  | VNumber y =>
      Returned (match a with
                | VNumber x => x =? y
                | VDouble x => SFeqb x (of_int y)
                | _ => false
                end)
  | VDouble y =>
      Returned (match a with
                | VNumber x => SFeqb (of_int x) y
                | VDouble x => SFeqb x y
                | _ => false
                end)
  | VString y => Returned (match a with VString x => String.eqb x y | _ => false end)
  | _ => IllTyped
  end.

(** The casts [v as T]. *)
Definition as_string (v : value) : outcome string :=
  match v with VString s => Returned s | _ => IllTyped end.

Definition as_number (v : value) : outcome Z :=
  match v with VNumber n => Returned n | _ => IllTyped end.

(** [v as number] where the number need not be an integer. *)
Definition as_double (v : value) : outcome spec_float :=
  match v with
  | VNumber n => Returned (of_int n)
  | VDouble x => Returned x
  | _ => IllTyped
  end.

Definition as_array (v : value) : outcome (list value) :=
  match v with VArray items => Returned items | _ => IllTyped end.

Definition as_object (v : value) : outcome (gmap string value) :=
  match v with VObject fields => Returned fields | _ => IllTyped end.

Definition as_string_array (v : value) : outcome (list string) :=
  let* items := as_array v in mapM as_string items.

Definition as_number_array (v : value) : outcome (list Z) :=
  let* items := as_array v in mapM as_number items.

Definition as_object_array (v : value) : outcome (list (gmap string value)) :=
  let* items := as_array v in mapM as_object items.

(** *** Set and Map *)

(** Set.prototype.add: a new element goes last, a present one changes
    nothing. *)
Definition Set_add (s : list Z) (x : Z) : list Z :=
  if decide (x ∈ s) then s else s ++ [x].

(** [new Set(elems)]: the distinct elements in the order of their first
    insertion; it is also what the spread [[...set]] enumerates. *)
Definition Set_new (elems : list Z) : list Z := foldl Set_add [] elems.

Definition Set_size (s : list Z) : Z := Z.of_nat (length s).

Definition Set_has (s : list Z) (x : Z) : bool := bool_decide (x ∈ s).

(** Map.prototype.get on [new Map(entries)]: the last entry of the key. *)
Fixpoint Map_get (entries : list (string * string)) (k : string) : option string :=
  match entries with
  | [] => None
  | (k', v) :: rest =>
      match Map_get rest k with
      | Some v' => Some v'
      | None => if String.eqb k' k then Some v else None
      end
  end.

End JS.

(** ** TestModePage *)

Module TestMode.
Import JS.

(** types/index.ts: [Question] and the tags of [QuestionType]. *)
Record Question : Type := {
  id : Z;
  node_id : Z;
  type : string;
  content : gmap string value;
}.

Definition QuestionType : list string :=
  [ "multiple_choice"; "find_error"; "strike_out"; "ordering"; "highlight";
    "swipe_decision"; "fill_gap"; "matching"; "graph_point"; "trend_arrow";
    "slider_value" ]%string.

(** [cards.every((card, i) => card.correct_swipe === answers[i])]. *)
Definition every_swipe (swipes answers : list string) : bool :=
  forallb (λ '(i, correct_swipe),
             match answers !! i with
             | Some a => String.eqb correct_swipe a
             | None => false
             end)
          (imap pair swipes).

(** [pairs.every(pair => matches.get(pair.id) === pair.id)]. *)
Definition every_match (ids : list string) (matches : list (string * string)) : bool :=
  forallb (λ pair_id,
             match Map_get matches pair_id with
             | Some rightId => String.eqb rightId pair_id
             | None => false
             end)
          ids.

(** [Math.sqrt(Math.pow(dx, 2) + Math.pow(dy, 2))] for integers [dx], [dy]. *)
Definition distance (dx dy : Z) : spec_float :=
  sqrt (add (mul (of_int dx) (of_int dx)) (mul (of_int dy) (of_int dy))).

Definition checkAnswer (question : Question) (answer : value) : outcome bool :=
  let content := question.(content) in
  let type := question.(type) in
  if String.eqb type "multiple_choice" then
    let* correctOption :=
      match get content "options" with
      | VUndefined | VNull => Returned None
      | options =>
          let* options := as_object_array options in
          Returned (List.find (λ o, truthy (get o "is_correct")) options)
      end in
    strict_equals answer
      (match correctOption with
       | Some o => get o "id"
       | None => VUndefined
       end)
  else if String.eqb type "find_error" then
    strict_equals answer (get content "error_index")
  else if String.eqb type "strike_out" then
    let* correct_ids_to_remove := as_number_array (get content "correct_ids_to_remove") in
    let correctIds := Set_new correct_ids_to_remove in
    match answer with
    | VUndefined | VNull => Returned false
    | VSet elems =>
        let answerSet := Set_new elems in
        Returned ((Set_size answerSet =? Set_size correctIds)
                  && forallb (λ id, Set_has correctIds id) answerSet)
    | _ => IllTyped
    end
  else if String.eqb type "ordering" then
    let* correctOrder := as_string_array (get content "correct_order") in
    let* answerOrder := as_string_array answer in
    Returned (String.eqb (JSON_stringify answerOrder) (JSON_stringify correctOrder))
  else if String.eqb type "highlight" then
    let* correct_phrase := as_string (get content "correct_phrase") in
    let correctPhrase := toLowerCase correct_phrase in
    let* answer := as_string answer in
    let answerText := toLowerCase answer in
    Returned (includes answerText correctPhrase || includes correctPhrase answerText)
  else if String.eqb type "swipe_decision" then
    let* cards := as_object_array (get content "cards") in
    let* swipes := mapM (λ card, as_string (get card "correct_swipe")) cards in
    let* answers := as_string_array answer in
    Returned (every_swipe swipes answers)
  else if String.eqb type "fill_gap" then
    let* correct_answer := as_string (get content "correct_answer") in
    let correctAnswer := trim (toLowerCase correct_answer) in
    let* answer := as_string answer in
    Returned (String.eqb (trim (toLowerCase answer)) correctAnswer)
  else if String.eqb type "matching" then
    let* pairs := as_object_array (get content "pairs") in
    let* ids := mapM (λ pair, as_string (get pair "id")) pairs in
    match answer with
    | VMap matches => Returned (every_match ids matches)
    | _ => IllTyped
    end
  else if String.eqb type "graph_point" then
    let* point := as_object answer in
    let* x := as_number (get point "x") in
    let* y := as_number (get point "y") in
    let* targetX := as_number (get content "target_x") in
    let* targetY := as_number (get content "target_y") in
    let* radius := as_number (get content "radius") in
    Returned (SFleb (distance (x - targetX) (y - targetY)) (of_int radius))
  else if String.eqb type "trend_arrow" then
    strict_equals answer (get content "correct_trend")
  else if String.eqb type "slider_value" then
    let* correctValue := as_double (get content "correct_value") in
    let* tolerance := as_double (get content "tolerance") in
    let* answer := as_double answer in
    Returned (SFleb (SFabs (sub answer correctValue)) tolerance)
  else
    Returned false.

(** types/index.ts: [PassageNode]; the page reads [id] and [pass_score]. *)
Record PassageNode : Type := {
  node_key : Z;
  pass_score : Z;
  is_boss : bool;
}.

Record QuestionResult : Type := {
  questionId : Z;
  isCorrect : bool;
  userAnswer : value;
}.

(** The state of the page once [fetchData] has finished: the [useState]
    cells that the handlers write. *)
Record State : Type := {
  currentIndex : nat;
  results : list QuestionResult;
  isComplete : bool;
  currentAnswer : value;
  showFeedback : bool;
  isCurrentCorrect : bool;
}.

Definition initial : State :=
  {| currentIndex := 0; results := []; isComplete := false;
     currentAnswer := VNull; showFeedback := false; isCurrentCorrect := false |}.

Section Page.

(** The data loaded by [fetchData]. *)
Variable node : option PassageNode.
Variable questions : list Question.

(** [questions[currentIndex]], typed [Question]. *)
Definition currentQuestion (st : State) : outcome Question :=
  match questions !! st.(currentIndex) with
  | Some q => Returned q
  | None => IllTyped
  end.

Definition handleSubmitAnswer (st : State) : outcome State :=
  match st.(currentAnswer) with
  | VNull => Returned st
  | currentAnswer =>
      let* question := currentQuestion st in
      let* isCorrect := checkAnswer question currentAnswer in
      Returned {| currentIndex := st.(currentIndex);
                  results := st.(results);
                  isComplete := st.(isComplete);
                  currentAnswer := st.(TestMode.currentAnswer);
                  showFeedback := true;
                  isCurrentCorrect := isCorrect |}
  end.

Definition handleNextQuestion (st : State) : outcome State :=
  let* question := currentQuestion st in
  let results' :=
    st.(results) ++ [ {| questionId := question.(id);
                         isCorrect := st.(isCurrentCorrect);
                         userAnswer := st.(currentAnswer) |} ] in
  if Z.of_nat st.(currentIndex) <? Z.of_nat (length questions) - 1 then
    Returned {| currentIndex := st.(currentIndex) + 1;
                results := results';
                isComplete := st.(isComplete);
                currentAnswer := VNull;
                showFeedback := false;
                isCurrentCorrect := st.(isCurrentCorrect) |}
  else
    Returned {| currentIndex := st.(currentIndex);
                results := results';
                isComplete := true;
                currentAnswer := st.(currentAnswer);
                showFeedback := st.(showFeedback);
                isCurrentCorrect := st.(isCurrentCorrect) |}.

Definition handleRestart (st : State) : State :=
  {| currentIndex := 0;
     results := [];
     isComplete := false;
     currentAnswer := VNull;
     showFeedback := false;
     isCurrentCorrect := st.(isCurrentCorrect) |}.

(** [setCurrentAnswer], handed to the question component as
    [onAnswerChange]. *)
Definition setCurrentAnswer (answer : value) (st : State) : State :=
  {| currentIndex := st.(currentIndex);
     results := st.(results);
     isComplete := st.(isComplete);
     currentAnswer := answer;
     showFeedback := st.(showFeedback);
     isCurrentCorrect := st.(isCurrentCorrect) |}.

(** [results.filter(r => r.isCorrect).length]. *)
Definition correctAnswers (st : State) : Z :=
  Z.of_nat (length (List.filter isCorrect st.(results))).

Definition finalScore (st : State) : integral :=
  if st.(isComplete) then
    Math_round (mul (div (of_int (correctAnswers st))
                         (of_int (Z.of_nat (length questions))))
                    (of_int 100))
  else Int 0.

(** [node?.pass_score || 70]. *)
Definition threshold : Z :=
  match node with
  | Some n => if n.(pass_score) =? 0 then 70 else n.(pass_score)
  | None => 70
  end.

Definition passed (st : State) : bool := ge (finalScore st) threshold.

(** What the page renders, after the loading screen. *)
Inductive Screen : Type :=
| NoQuestions
| Completion
| InProgress.

Definition screen (st : State) : Screen :=
  if (length questions =? 0)%nat then NoQuestions
  else if st.(isComplete) then Completion
  else InProgress.

(** The controls of the page with a handler of the session behind them. *)
Inductive Control : Type :=
| CheckAnswer
| Next
| TryAgain
| AnswerChange (answer : value).

(** The control is on the screen and not disabled. *)
Definition rendered (st : State) (c : Control) : bool :=
  match screen st, c with
  | InProgress, CheckAnswer =>
      negb st.(showFeedback)
      && negb (match st.(currentAnswer) with VNull => true | _ => false end)
  | InProgress, Next => st.(showFeedback)
  | InProgress, AnswerChange _ => true
  | Completion, TryAgain => true
  | _, _ => false
  end.

Definition handle (c : Control) (st : State) : outcome State :=
  match c with
  | CheckAnswer => handleSubmitAnswer st
  | Next => handleNextQuestion st
  | TryAgain => Returned (handleRestart st)
  | AnswerChange answer => Returned (setCurrentAnswer answer st)
  end.

(** One interaction of the user with the page. *)
Inductive step : State → State → Prop :=
| step_control c st st' :
    rendered st c = true →
    handle c st = Returned st' →
    step st st'.

Inductive reachable : State → Prop :=
| reachable_initial : reachable initial
| reachable_step st st' : reachable st → step st st' → reachable st'.

End Page.

End TestMode.

(** ** OrderingForm (the editor of ordering questions) *)

Module OrderingForm.
Import JS.

Record OrderingItem : Type := {
  id : string;
  content : string;
}.

Record OrderingContent : Type := {
  items : list OrderingItem;
  correct_order : list string;
  explanation : string;
}.

(** [getDefaultContent('ordering')]. *)
Definition getDefaultContent : OrderingContent :=
  {| items := [ {| id := "A"; content := EmptyString |};
                {| id := "B"; content := EmptyString |};
                {| id := "C"; content := EmptyString |} ];
     correct_order := [ "A"; "B"; "C" ]%string;
     explanation := EmptyString |}.

(** [String.fromCharCode(code)], for codes below 256. *)
Definition fromCharCode (code : nat) : string :=
  String (ascii_of_nat code) EmptyString.

Definition addItem (value : OrderingContent) : OrderingContent :=
  let newId := fromCharCode (65 + length value.(items)) in
  {| items := value.(items) ++ [ {| id := newId; content := EmptyString |} ];
     correct_order := value.(correct_order) ++ [ newId ];
     explanation := value.(explanation) |}.

(** [removeItem(index)]; the button exists for the indices of [items]. *)
Definition removeItem (index : nat) (value : OrderingContent) : outcome OrderingContent :=
  match value.(items) !! index with
  | None => IllTyped
  | Some item =>
      let removedId := item.(id) in
      Returned
        {| items := delete index value.(items);
           correct_order :=
             List.filter (λ id, negb (String.eqb id removedId)) value.(correct_order);
           explanation := value.(explanation) |}
  end.

End OrderingForm.

(** ** VillagesPage *)

Module Villages.

Inductive SubjectType : Type := english | reading | math | science.

Module Village.
Record t : Type := {
  id : Z;
  title : string;
  svg : option string;
  treasure_capacity : Z;
  speed_production_treasure : Z;
  cost : Z;
  subject : SubjectType;
}.
End Village.

(** The values of the form, after validation by [villageSchema]. *)
Module VillageFormValues.
Record t : Type := {
  title : string;
  svg : option string;
  treasure_capacity : Z;
  speed_production_treasure : Z;
  cost : Z;
}.
End VillageFormValues.

(** The body of a POST; [type] is always ['village']. *)
Module VillageCreate.
Record t : Type := {
  title : string;
  subject : SubjectType;
  svg : option string;
  treasure_capacity : Z;
  speed_production_treasure : Z;
  cost : Z;
}.
End VillageCreate.

(** The body of an update: [None] is an absent key, [svg := Some None] is
    [svg: null]. *)
Module VillageUpdate.
Record t : Type := {
  title : option string;
  treasure_capacity : option Z;
  speed_production_treasure : option Z;
  cost : option Z;
  svg : option (option string);
}.
End VillageUpdate.

(** The calls of [buildingsApi] that [handleSubmit] makes. *)
Inductive Request : Type :=
| createVillage (data : VillageCreate.t)
| updateVillage (id : Z) (data : VillageUpdate.t).

Record State : Type := {
  selectedSubject : SubjectType;
  villages : list Village.t;
  editingVillage : option Village.t;
}.

Definition isFirstVillage (st : State) : bool :=
  match st.(editingVillage) with
  | Some editingVillage => editingVillage.(Village.cost) =? 0
  | None => (length st.(villages) =? 0)%nat
  end.

(** [s || ''] and [s || null], on an optional string. *)
Definition nonempty (s : option string) : option string :=
  match s with
  | Some s => if String.eqb s EmptyString then None else Some s
  | None => None
  end.

(** [if (a !== b) updateData.k = a]. *)
Definition changed {A : Type} `{EqDecision A} (a b : A) : option A :=
  if decide (a = b) then None else Some a.

(** [Object.keys(updateData).length]. *)
Definition key {A : Type} (field : option A) : nat :=
  match field with
  | Some _ => 1
  | None => 0
  end.

Definition keys (d : VillageUpdate.t) : nat :=
  key d.(VillageUpdate.title)
  + key d.(VillageUpdate.treasure_capacity)
  + key d.(VillageUpdate.speed_production_treasure)
  + key d.(VillageUpdate.cost)
  + key d.(VillageUpdate.svg).

(** The request that [handleSubmit(values)] sends, if any. *)
Definition handleSubmit (st : State) (values : VillageFormValues.t) : option Request :=
  let isFirst := isFirstVillage st in
  let cost := if isFirst then 0 else values.(VillageFormValues.cost) in
  match st.(editingVillage) with
  | Some editingVillage =>
      let originalSvg := default EmptyString (nonempty editingVillage.(Village.svg)) in
      let updateData :=
        {| VillageUpdate.title :=
             changed values.(VillageFormValues.title) editingVillage.(Village.title);
           VillageUpdate.treasure_capacity :=
             changed values.(VillageFormValues.treasure_capacity)
                     editingVillage.(Village.treasure_capacity);
           VillageUpdate.speed_production_treasure :=
             changed values.(VillageFormValues.speed_production_treasure)
                     editingVillage.(Village.speed_production_treasure);
           VillageUpdate.cost := changed cost editingVillage.(Village.cost);
           VillageUpdate.svg :=
             if decide (values.(VillageFormValues.svg) = Some originalSvg) then None
             else Some (nonempty values.(VillageFormValues.svg)) |} in
      if (0 <? keys updateData)%nat
      then Some (updateVillage editingVillage.(Village.id) updateData)
      else None
  | None =>
      Some (createVillage
              {| VillageCreate.title := values.(VillageFormValues.title);
                 VillageCreate.subject := st.(selectedSubject);
                 VillageCreate.svg := nonempty values.(VillageFormValues.svg);
                 VillageCreate.treasure_capacity :=
                   values.(VillageFormValues.treasure_capacity);
                 VillageCreate.speed_production_treasure :=
                   values.(VillageFormValues.speed_production_treasure);
                 VillageCreate.cost := cost |})
  end.

(** The cost that a request carries. *)
Definition cost_sent (r : Request) : option Z :=
  match r with
  | createVillage data => Some data.(VillageCreate.cost)
  | updateVillage _ data => data.(VillageUpdate.cost)
  end.

End Villages.

(** * Vocabulary of the specification and sample data *)

Import JS.

(** [sub] occurs in [s]. *)
Definition substring_of (sub s : string) : Prop :=
  ∃ before after : string, s = before +:+ sub +:+ after.

(** Two code units that are the same letter, in either case: equal, or an
    upper-case letter (A-Z, or U+00C0-U+00DE without U+00D7) with its lower
    case 32 places further. *)
Definition lower_case_of (upper lower : ascii) : bool :=
  let u := N_of_ascii upper in
  (N_of_ascii lower =? u + 32)%N
  && (((65 <=? u) && (u <=? 90)) || ((192 <=? u) && (u <=? 214))
      || ((216 <=? u) && (u <=? 222)))%N.

Definition same_letter (c d : ascii) : bool :=
  Ascii.eqb c d || lower_case_of c d || lower_case_of d c.

(** Two strings that differ at most in the case of their letters; and a
    string that contains another one up to the case of the letters. *)
Fixpoint same_up_to_case (s t : string) : bool :=
  match s, t with
  | EmptyString, EmptyString => true
  | String c s', String d t' => same_letter c d && same_up_to_case s' t'
  | _, _ => false
  end.

Definition contains_ignoring_case (s sub : string) : Prop :=
  ∃ before found after : string,
    s = before +:+ found +:+ after ∧ same_up_to_case found sub = true.


(** round(100 * correct / total), halves rounded up, in exact arithmetic. *)
Definition round_percent (correct total : Z) : Z :=
  (200 * correct + total) / (2 * total).

(** The list with the entries at positions [i] and [j] exchanged. *)
Definition transpose {A : Type} (i j : nat) (l : list A) : list A :=
  match l !! i, l !! j with
  | Some x, Some y => <[i := y]> (<[j := x]> l)
  | _, _ => l
  end.

(** All the characters, and a test that two strings differ at a position
    that both have: the means to check the escapes of [quote_char] one by
    one. *)
Definition all_ascii : list ascii := ascii_of_nat <$> seq 0 256.

Fixpoint diverge (s t : string) : bool :=
  match s, t with
  | String a s', String b t' =>
      if Ascii.eqb a b then diverge s' t' else true
  | _, _ => false
  end.

(** A script of interactions: each control must be on the screen when it is
    used, and its handler must return. *)
Fixpoint play (questions : list TestMode.Question) (script : list TestMode.Control)
    (st : TestMode.State) : option TestMode.State :=
  match script with
  | [] => Some st
  | c :: script' =>
      if TestMode.rendered questions st c then
        match TestMode.handle questions c st with
        | Returned st' => play questions script' st'
        | IllTyped => None
        end
      else None
  end.

(** What holds of the states that the user can reach. *)
Definition session_ok (questions : list TestMode.Question) (st : TestMode.State) : Prop :=
  if TestMode.isComplete st
  then length (TestMode.results st) = length questions
       ∧ (TestMode.currentIndex st + 1)%nat = length questions
  else length (TestMode.results st) = TestMode.currentIndex st
       ∧ (questions ≠ [] → (TestMode.currentIndex st < length questions)%nat).

(** The percentage that [finalScore] computes from the counts, and the test
    that it is round(100 * correct / total).  Among the tests of at most a
    hundred questions the test fails for 23 correct answers of 40 and for 46
    of 80 only: 57.5 exactly, where the product of the doubles falls below
    the half. *)
Definition percentage (correct total : Z) : integral :=
  Math_round (mul (div (of_int correct) (of_int total)) (of_int 100)).

Definition percentage_ok (correct total : Z) : bool :=
  match percentage correct total with
  | Int score => score =? round_percent correct total
  | _ => false
  end.

Definition half_missed (correct total : Z) : bool :=
  ((correct =? 23) && (total =? 40)) || ((correct =? 46) && (total =? 80)).

(** The test of slider_value as the doubles compute it on whole numbers. *)
Definition slider_in_doubles (answer correctValue tolerance : Z) : bool :=
  SFleb (SFabs (sub (of_int answer) (of_int correctValue))) (of_int tolerance).

(** The double of a whole number of at most 53 bits, written out: the
    magnitude [p] with zero bits appended up to 53 bits, and the exponent
    that makes up for them. *)
Definition shl (p : positive) (n : Z) : positive :=
  match n with
  | Z.pos k => Pos.iter xO p k
  | _ => p
  end.

Definition whole (s : bool) (p : positive) : spec_float :=
  let d := Z.pos (digits2_pos p) in
  S754_finite s (shl p (53 - d)) (d - 53).

Definition double_of (z : Z) : spec_float :=
  match z with
  | 0 => S754_zero false
  | Z.pos p => whole false p
  | Z.neg p => whole true p
  end.

(** The number with one decimal digit [k / 10] as a JavaScript number: the
    double nearest to it, which [parseFloat] and [Number] give for its
    decimal text and which is the quotient of the doubles [k] and 10.  A
    value holds [k / 10] when it is that double. *)
Definition tenth (k : Z) : spec_float := div (of_int k) (of_int 10).

Definition decimal (k : Z) : value := VDouble (tenth k).

Definition holds_tenths (v : value) (k : Z) : Prop :=
  as_double v = Returned (tenth k).

(** The tenths from [from] on, and the whole numbers among them, with their
    doubles; and the test that |answer - correct_value| as the doubles
    compute it, for [answer = a / 10] and [correct_value = c / 10], lies
    between the tenths next to the exact difference: above the one before
    and not above the one after. *)
Definition tenths (from len : Z) : list (Z * spec_float) :=
  (λ k, (k, tenth k)) <$> seqZ from len.

Definition whole_tenths (from len : Z) : list (Z * spec_float) :=
  (λ n, (10 * n, tenth (10 * n))) <$> seqZ from len.

Definition nth_tenth (ts : Zmap spec_float) (k : Z) : spec_float :=
  default S754_nan (ts !! k).

Definition near_tenths (ts : Zmap spec_float)
    (a : Z) (answer : spec_float) (c : Z) (correctValue : spec_float) : bool :=
  let d := SFabs (sub answer correctValue) in
  let k := Z.abs (a - c) in
  SFleb d (nth_tenth ts (k + 1)) && negb (SFleb d (nth_tenth ts (k - 1))).

Module Samples.
Import TestMode.

Definition question (key : Z) (tag : string) (fields : list (string * value)) : Question :=
  {| id := key; node_id := 7; type := tag; content := list_to_map fields |}.

Definition essay : Question :=
  question 1 "essay" [ ("prompt", VString "Describe a koala") ]%string.

Definition highlight_dog : Question :=
  question 2 "highlight"
    [ ("passage", VString "Yesterday the dog ran home");
      ("correct_phrase", VString "dog") ]%string.

Definition strike_out_1_3 : Question :=
  question 3 "strike_out"
    [ ("sentence", VString "the reason why is because");
      ("correct_ids_to_remove", VArray [ VNumber 1; VNumber 3 ]) ]%string.

Definition slider_50_5 : Question :=
  question 4 "slider_value"
    [ ("min_value", VNumber 0); ("max_value", VNumber 100);
      ("correct_value", VNumber 50); ("tolerance", VNumber 5) ]%string.

(** The correct value 0.7 with the tolerance 0.3, as the form stores them;
    and a correct value and a tolerance beyond the integers that doubles
    tell apart. *)
Definition slider_07_03 : Question :=
  question 13 "slider_value"
    [ ("min_value", VNumber 0); ("max_value", VNumber 100);
      ("correct_value", decimal 7); ("tolerance", decimal 3) ]%string.

Definition slider_2_53 : Question :=
  question 14 "slider_value"
    [ ("min_value", VNumber (-1)); ("max_value", VNumber (2 ^ 53));
      ("correct_value", VNumber (-1)); ("tolerance", VNumber (2 ^ 53)) ]%string.

Definition ordering_A_B_C : Question :=
  question 6 "ordering"
    [ ("correct_order", VArray [ VString "A"; VString "B"; VString "C" ]) ]%string.

(** The ordering content after the author removes the first item of the
    default content and adds an item: the id [C] is issued twice. *)
Definition ordering_B_C_C : Question :=
  question 5 "ordering"
    [ ("correct_order", VArray [ VString "B"; VString "C"; VString "C" ]) ]%string.

(** A test of three questions, answered right, wrong, right. *)
Definition three_questions : list Question :=
  [ slider_50_5; highlight_dog; strike_out_1_3 ].

Definition two_of_three : list Control :=
  [ AnswerChange (VNumber 45); CheckAnswer; Next;
    AnswerChange (VString "cat"); CheckAnswer; Next;
    AnswerChange (VSet [3; 1]); CheckAnswer; Next ].

Definition node_with (score : Z) : PassageNode :=
  {| node_key := 7; pass_score := score; is_boss := false |}.

(** The state after the first answer has been checked. *)
Definition first_checked : State :=
  {| currentIndex := 0; results := []; isComplete := false;
     currentAnswer := VNumber 45; showFeedback := true;
     isCurrentCorrect := true |}.

(** A completed test of forty questions with twenty-three correct
    answers. *)
Definition forty_questions : list Question := replicate 40 slider_50_5.

Definition twenty_three_of_forty : list Control :=
  concat (replicate 23 [ AnswerChange (VNumber 50); CheckAnswer; Next ])
  ++ concat (replicate 17 [ AnswerChange (VNumber 0); CheckAnswer; Next ]).

(** The village form with no village yet in the subject, and a form filled
    with the cost 500. *)
Definition no_village_yet : Villages.State :=
  {| Villages.selectedSubject := Villages.english;
     Villages.villages := [];
     Villages.editingVillage := None |}.

Definition cost_500 : Villages.VillageFormValues.t :=
  {| Villages.VillageFormValues.title := "Eucalyptus Grove";
     Villages.VillageFormValues.svg := None;
     Villages.VillageFormValues.treasure_capacity := 300;
     Villages.VillageFormValues.speed_production_treasure := 1;
     Villages.VillageFormValues.cost := 500 |}.

End Samples.

(** * More of the pages *)

(** ** The question components of TestModePage *)

Module StrikeOutQuestion.

(** Set.prototype.delete. *)
Definition Set_delete (s : list Z) (x : Z) : list Z :=
  List.filter (λ y, negb (y =? x)) s.

(** [toggleStrike(index)] on the elements of [striked]: the elements of the
    Set handed to [onAnswerChange]. *)
Definition toggleStrike (index : Z) (striked : list Z) : list Z :=
  let newStriked := Set_new striked in
  if Set_has newStriked index then Set_delete newStriked index
  else Set_add newStriked index.

(** The selection after the words [clicks] have been clicked in turn,
    starting from no answer ([answer || new Set()]). *)
Definition clicked (clicks : list Z) : list Z :=
  foldl (λ striked index, toggleStrike index striked) [] clicks.

End StrikeOutQuestion.

Module OrderingQuestion.

(** [handleDrop(dropIndex)] for the row [draggedIndex] being dragged: the new
    [orderedIds], which is also the answer handed to [onAnswerChange]. *)
Definition handleDrop (draggedIndex dropIndex : nat) (orderedIds : list string)
    : outcome (list string) :=
  match orderedIds !! draggedIndex with
  | None => IllTyped
  | Some removed =>
      let newOrder := delete draggedIndex orderedIds in
      Returned (take dropIndex newOrder ++ removed :: drop dropIndex newOrder)
  end.

(** Drags in turn, each given by the dragged row and the row dropped on. *)
Fixpoint drags (moves : list (nat * nat)) (orderedIds : list string)
    : outcome (list string) :=
  match moves with
  | [] => Returned orderedIds
  | (draggedIndex, dropIndex) :: moves' =>
      let* newOrder := handleDrop draggedIndex dropIndex orderedIds in
      drags moves' newOrder
  end.

End OrderingQuestion.

Module SwipeDecisionQuestion.

(** The cells [currentCardIndex] and [answers] of the component ([useState(0)]
    and [useState(answer || [])]); [swipeDirection] only animates the
    card. *)
Record State : Type := {
  currentCardIndex : nat;
  answers : list string;
}.

Definition mounted (answer : option (list string)) : State :=
  {| currentCardIndex := 0; answers := default [] answer |}.

(** What [handleSwipe(direction)] leaves to [setTimeout]: a closure over the
    cells as they are at the swipe.  Nothing is left when the feedback is
    shown or every card is done. *)
Record Timer : Type := {
  seen : State;
  direction : string;
}.

Definition handleSwipe (showFeedback : bool) (cards : nat) (direction : string)
    (st : State) : option Timer :=
  if showFeedback || (cards <=? st.(currentCardIndex))%nat then None
  else Some {| seen := st; direction := direction |}.

(** The timer fires, 300 ms after the swipe: the new cells, and the answer
    handed to [onAnswerChange].  [showFeedback] is not read again. *)
Definition fire (t : Timer) : State * list string :=
  let newAnswers := t.(seen).(answers) ++ [ t.(direction) ] in
  ({| currentCardIndex := t.(seen).(currentCardIndex) + 1;
      answers := newAnswers |},
   newAnswers).

(** [answers.filter((a, i) => a === cards[i]?.correct_swipe).length], on the
    [correct_swipe] of the cards. *)
Definition correctCount (swipes answers : list string) : nat :=
  length (List.filter (λ '(i, a),
                         match swipes !! i with
                         | Some correct_swipe => String.eqb a correct_swipe
                         | None => false
                         end)
                      (imap pair answers)).

End SwipeDecisionQuestion.

Module MatchingQuestion.

(** The entries of a Map in insertion order, with Map.prototype.has and
    Map.prototype.set. *)
Definition Map_has (m : list (string * string)) (k : string) : bool :=
  existsb (λ '(k', _), String.eqb k' k) m.

Definition Map_set (m : list (string * string)) (k v : string)
    : list (string * string) :=
  if Map_has m k
  then (λ '(k', v'), if String.eqb k' k then (k', v) else (k', v')) <$> m
  else m ++ [ (k, v) ].

Record State : Type := {
  selectedLeft : option string;
  matches : list (string * string);
}.

(** The cells when the component is mounted: [useState(null)] and
    [useState(answer || new Map())]. *)
Definition mounted (answer : option (list (string * string))) : State :=
  {| selectedLeft := None; matches := default [] answer |}.

Definition handleLeftClick (id : string) (st : State) : State :=
  if Map_has st.(matches) id then st
  else {| selectedLeft := Some id; matches := st.(matches) |}.

(** [!selectedLeft] also holds of the empty id. *)
Definition handleRightClick (rightId : string) (st : State) : State :=
  match st.(selectedLeft) with
  | None => st
  | Some leftId =>
      if String.eqb leftId EmptyString then st
      else {| selectedLeft := None;
              matches := Map_set st.(matches) leftId rightId |}
  end.


(** The buttons, one per pair in each column, while the feedback is
    hidden. *)
Inductive Button : Type :=
| LeftButton (id : string)
| RightButton (id : string).

(** The button belongs to a pair and is not disabled. *)
Definition enabled (ids : list string) (st : State) (b : Button) : bool :=
  match b with
  | LeftButton id => bool_decide (id ∈ ids) && negb (Map_has st.(matches) id)
  | RightButton id =>
      bool_decide (id ∈ ids) && negb (bool_decide (id ∈ st.(matches).*2))
  end.

Definition click (b : Button) (st : State) : State :=
  match b with
  | LeftButton id => handleLeftClick id st
  | RightButton id => handleRightClick id st
  end.

(** The states that the buttons lead to from the state [start] in which the
    question is first shown.  QuestionComponent renders the component of
    the current question at one place and without a key: between two
    consecutive matching questions React keeps the instance, and the second
    question starts in the last state of the first; otherwise the question
    starts in the state of a mount. *)
Inductive reachable (ids : list string) (start : State) : State → Prop :=
| reachable_start : reachable ids start start
| reachable_click st b :
    reachable ids start st → enabled ids st b = true →
    reachable ids start (click b st).

End MatchingQuestion.

(** ** The header of TestModePage *)

Module TestModeHeader.
Import TestMode.

Definition correctCount (st : State) : nat :=
  length (List.filter isCorrect st.(results))
  + (if st.(showFeedback) && st.(isCurrentCorrect) then 1 else 0).

Definition totalAnswered (st : State) : nat :=
  length st.(results) + (if st.(showFeedback) then 1 else 0).

End TestModeHeader.

(** ** OrderingForm: the arrows of the correct order *)

Module OrderingArrows.
Import OrderingForm.

Inductive Direction : Type := up | down.

(** [moveInOrder(fromIndex, direction)]; the arrows exist for the indices of
    [correct_order]. *)
Definition moveInOrder (fromIndex : nat) (direction : Direction)
    (value : OrderingContent) : outcome OrderingContent :=
  let newOrder := value.(correct_order) in
  let toIndex : Z :=
    match direction with
    | up => Z.of_nat fromIndex - 1
    | down => Z.of_nat fromIndex + 1
    end in
  if (toIndex <? 0) || (Z.of_nat (length newOrder) <=? toIndex) then Returned value
  else
    match newOrder !! fromIndex, newOrder !! Z.to_nat toIndex with
    | Some a, Some b =>
        Returned
          {| items := value.(items);
             correct_order := <[fromIndex := b]> (<[Z.to_nat toIndex := a]> newOrder);
             explanation := value.(explanation) |}
    | _, _ => IllTyped
    end.

End OrderingArrows.

(** ** VillagesPage: the edit dialog *)

Module VillageDialog.
Import Villages.

(** The values that [openEditDialog(village)] puts in the form. *)
Definition openEditDialog (village : Village.t) : VillageFormValues.t :=
  {| VillageFormValues.title := village.(Village.title);
     VillageFormValues.svg :=
       Some (default EmptyString (nonempty village.(Village.svg)));
     VillageFormValues.treasure_capacity := village.(Village.treasure_capacity);
     VillageFormValues.speed_production_treasure :=
       village.(Village.speed_production_treasure);
     VillageFormValues.cost := village.(Village.cost) |}.

(** The page once the dialog is open on [village]. *)
Definition editing (st : State) (village : Village.t) : State :=
  {| selectedSubject := st.(selectedSubject);
     villages := st.(villages);
     editingVillage := Some village |}.

End VillageDialog.

(** ** api/buildings.ts *)

Module BuildingsApi.

Inductive Method : Type := GET | POST | PUT | DELETE.

Inductive Body : Type :=
| create (data : Villages.VillageCreate.t)
| update (data : Villages.VillageUpdate.t).

(** A call of [apiClient]. *)
Record Call : Type := {
  method : Method;
  url : string;
  body : Body;
}.

(** The id in a template literal: its decimal digits. *)
Definition decimal_digits (id : Z) : string :=
  NilZero.string_of_int (Z.to_int id).

Definition createVillage (data : Villages.VillageCreate.t) : Call :=
  {| method := POST; url := "/buildings/villages"; body := create data |}.

Definition updateVillage (id : Z) (data : Villages.VillageUpdate.t) : Call :=
  {| method := PUT;
     url := "/buildings/villages/" +:+ decimal_digits id;
     body := update data |}.

(** The call of [apiClient] that a request of VillagesPage makes. *)
Definition call (request : Villages.Request) : Call :=
  match request with
  | Villages.createVillage data => createVillage data
  | Villages.updateVillage id data => updateVillage id data
  end.

End BuildingsApi.

(** ** More vocabulary *)

(** A string of white space only. *)
Fixpoint blank (s : string) : bool :=
  match s with
  | EmptyString => true
  | String c s' => is_white_space c && blank s'
  end.

(** A card of a swipe_decision question and a pair of a matching question,
    as JSON data; and the strings that the objects of an array hold in the
    field [f]. *)
Definition card (content correct_swipe explanation : string)
    : gmap string value :=
  list_to_map [ ("content", VString content);
                ("correct_swipe", VString correct_swipe);
                ("explanation", VString explanation) ]%string.


Definition field_strings (f : string) (objects : list (gmap string value))
    (strings : list string) : Prop :=
  (λ o, get o f) <$> objects = VString <$> strings.

Definition point (x y : Z) : value :=
  VObject (<[ "x"%string := VNumber x ]> {[ "y"%string := VNumber y ]}).

(** The interactions in which an answer changes only while the feedback is
    hidden.  The handlers of the question components return at once when
    [showFeedback] is set, and so keep to these interactions; the timer of
    SwipeDecisionQuestion does not read [showFeedback] again, and does
    not. *)
Definition guarded (st : TestMode.State) (c : TestMode.Control) : bool :=
  match c with
  | TestMode.AnswerChange _ => negb (TestMode.showFeedback st)
  | _ => true
  end.

Inductive reachable_guarded (questions : list TestMode.Question)
    : TestMode.State → Prop :=
| reachable_guarded_initial : reachable_guarded questions TestMode.initial
| reachable_guarded_step st c st' :
    reachable_guarded questions st →
    guarded st c = true →
    TestMode.rendered questions st c = true →
    TestMode.handle questions c st = Returned st' →
    reachable_guarded questions st'.

(** Two states of the session that differ at most in a grade that is not on
    the screen. *)
Definition same_session (st1 st2 : TestMode.State) : Prop :=
  TestMode.currentIndex st1 = TestMode.currentIndex st2
  ∧ TestMode.results st1 = TestMode.results st2
  ∧ TestMode.isComplete st1 = TestMode.isComplete st2
  ∧ TestMode.currentAnswer st1 = TestMode.currentAnswer st2
  ∧ TestMode.showFeedback st1 = TestMode.showFeedback st2
  ∧ (TestMode.showFeedback st1 = true →
     TestMode.isCurrentCorrect st1 = TestMode.isCurrentCorrect st2).

(** The percentage of [finalScore] against round(100 * correct / total): a
    whole number from 0 to 100, the rounded ratio or one less, 100 when all
    is correct and 0 when nothing is. *)
Definition percentage_near (correct total : Z) : bool :=
  match percentage correct total with
  | Int score =>
      (0 <=? score) && (score <=? 100)
      && (round_percent correct total - 1 <=? score)
      && (score <=? round_percent correct total)
      && (negb (correct =? total) || (score =? 100))
      && (negb (correct =? 0) || (score =? 0))
  | _ => false
  end.

(** Both tests of the percentage at once. *)
Definition percentage_checked (correct total : Z) : bool :=
  match percentage correct total with
  | Int score =>
      (0 <=? score) && (score <=? 100)
      && (round_percent correct total - 1 <=? score)
      && (score <=? round_percent correct total)
      && (negb (correct =? total) || (score =? 100))
      && (negb (correct =? 0) || (score =? 0))
      && ((score =? round_percent correct total) || half_missed correct total)
  | _ => false
  end.

(** The test of graph_point against the exact one. *)
Definition in_circle (dx dy radius : Z) : bool :=
  (0 <=? radius) && (dx * dx + dy * dy <=? radius * radius).

Definition distance_ok (dx dy radius : Z) : bool :=
  Bool.eqb (SFleb (TestMode.distance dx dy) (of_int radius))
           (in_circle dx dy radius).

(** The ids of the items of an ordering content, and the agreement of its
    two lists. *)
Definition item_ids (value : OrderingForm.OrderingContent) : list string :=
  OrderingForm.id <$> OrderingForm.items value.

Definition order_ok (value : OrderingForm.OrderingContent) : Prop :=
  OrderingForm.correct_order value ≡ₚ item_ids value.



(** Every record of the session is that of the question at its place; and,
    further, holds the grade that [checkAnswer] gives to its answer. *)
Definition records_follow (questions : list TestMode.Question)
    (st : TestMode.State) : Prop :=
  ∀ (i : nat) (r : TestMode.QuestionResult),
    TestMode.results st !! i = Some r →
    ∃ question : TestMode.Question,
      questions !! i = Some question
      ∧ TestMode.questionId r = TestMode.id question.

Definition records_graded (questions : list TestMode.Question)
    (st : TestMode.State) : Prop :=
  ∀ (i : nat) (r : TestMode.QuestionResult),
    TestMode.results st !! i = Some r →
    ∃ question : TestMode.Question,
      questions !! i = Some question
      ∧ TestMode.questionId r = TestMode.id question
      ∧ TestMode.userAnswer r ≠ VNull
      ∧ TestMode.checkAnswer question (TestMode.userAnswer r)
        = Returned (TestMode.isCorrect r).

(** The grade on the screen is that of the answer on the screen. *)
Definition feedback_graded (questions : list TestMode.Question)
    (st : TestMode.State) : Prop :=
  TestMode.showFeedback st = true →
  ∃ question : TestMode.Question,
    questions !! TestMode.currentIndex st = Some question
    ∧ TestMode.currentAnswer st ≠ VNull
    ∧ TestMode.checkAnswer question (TestMode.currentAnswer st)
      = Returned (TestMode.isCurrentCorrect st).

(** Further sample data: one question of each remaining graded type, and a
    village. *)
Module MoreSamples.
Import TestMode.

Definition two_cards : list (gmap string value) :=
  [ card "Koalas are marsupials" "left" "It is a fact";
    card "Koalas are the cutest animals" "right" "It is an opinion" ].

Definition swipe_left_right : Question :=
  Samples.question 8 "swipe_decision"
    [ ("cards", VArray (VObject <$> two_cards));
      ("labels", VObject (list_to_map [ ("left", VString "Fact");
                                        ("right", VString "Opinion") ])) ]%string.



(** After a mount, left [a] is matched with right [b], then left [b] with
    right [a]. *)
Definition crossed : MatchingQuestion.State :=
  MatchingQuestion.click (MatchingQuestion.RightButton "a")
    (MatchingQuestion.click (MatchingQuestion.LeftButton "b")
       (MatchingQuestion.click (MatchingQuestion.RightButton "b")
          (MatchingQuestion.click (MatchingQuestion.LeftButton "a")
             (MatchingQuestion.mounted None)))).



(** A swipe that is reported late.  The first card is swiped and the timer
    reports the answer; the second card is swiped and, before the timer
    fires, the answer is checked; then the timer reports the two swipes, and
    the user goes on. *)
Definition late_swipe : option State :=
  let questions := [ swipe_left_right ] in
  let mounted := SwipeDecisionQuestion.mounted None in
  first ← SwipeDecisionQuestion.handleSwipe false 2 "left" mounted;
  let '(cells, answer1) := SwipeDecisionQuestion.fire first in
  page1 ← play questions [ AnswerChange (VArray (VString <$> answer1)) ] initial;
  second ← SwipeDecisionQuestion.handleSwipe (showFeedback page1) 2 "right" cells;
  page2 ← play questions [ CheckAnswer ] page1;
  let '(_, answer2) := SwipeDecisionQuestion.fire second in
  play questions [ AnswerChange (VArray (VString <$> answer2)); Next ] page2.

Definition graph_5_5_5 : Question :=
  Samples.question 10 "graph_point"
    [ ("target_x", VNumber 5); ("target_y", VNumber 5);
      ("radius", VNumber 5) ]%string.

Definition option_of (id : string) (is_correct : bool) : gmap string value :=
  <[ "id"%string := VString id ]> {[ "is_correct"%string := VBool is_correct ]}.

(** Two options are marked correct. *)
Definition choice_b_c : Question :=
  Samples.question 11 "multiple_choice"
    [ ("options",
       VArray (VObject <$> [ option_of "a" false; option_of "b" true;
                             option_of "c" true ])) ]%string.

Definition gap_koala : Question :=
  Samples.question 12 "fill_gap" [ ("correct_answer", VString "Koala") ]%string.

(** The session after the first question of [Samples.three_questions] is
    answered, checked and left. *)
Definition second_question : State :=
  {| currentIndex := 1;
     results := [ {| questionId := 4; isCorrect := true;
                     userAnswer := VNumber 45 |} ];
     isComplete := false;
     currentAnswer := VNull;
     showFeedback := false;
     isCurrentCorrect := true |}.

(** Three perfect answers. *)
Definition three_of_three : list Control :=
  [ AnswerChange (VNumber 45); CheckAnswer; Next;
    AnswerChange (VString "the dog"); CheckAnswer; Next;
    AnswerChange (VSet [ 3; 1 ]); CheckAnswer; Next ].

Definition eucalyptus : Villages.Village.t :=
  {| Villages.Village.id := 3;
     Villages.Village.title := "Eucalyptus";
     Villages.Village.svg := None;
     Villages.Village.treasure_capacity := 300;
     Villages.Village.speed_production_treasure := 1;
     Villages.Village.cost := 500;
     Villages.Village.subject := Villages.math |}.

End MoreSamples.

(** * Properties *)

(** ** Strings: [includes] finds exactly the substrings *)

Section Strings.

Lemma prefix_true (p s : string) :
  String.prefix p s = true ↔ ∃ after : string, s = p +:+ after.
Proof.
  revert s. induction p as [|c p IH]; intros [|d s]; simpl.
  - split; [intros _; by exists EmptyString | done].
  - split; [intros _; by exists (String d s) | done].
  - split; [done | by intros [after ?]].
  - destruct (Ascii.ascii_dec c d) as [->|Hne].
    + rewrite IH. split.
      * intros [after ->]. by exists after.
      * intros [after Heq]. injection Heq as ->. by exists after.
    + split; [done | intros [after Heq]; by injection Heq].
Qed.

Lemma includes_true (s sub : string) :
  includes s sub = true ↔ substring_of sub s.
Proof.
  unfold substring_of. induction s as [|c s IH]; cbn [includes].
  - rewrite orb_false_r, prefix_true. split.
    + intros [after ->]. by exists EmptyString, after.
    + intros [[|d before] [after Heq]]; [by exists after | done].
  - rewrite orb_true_iff, prefix_true, IH. split.
    + intros [[after ->] | (before & after & ->)].
      * by exists EmptyString, after.
      * by exists (String c before), after.
    + intros [[|d before] [after Heq]].
      * left. by exists after.
      * right. injection Heq as -> ->. by exists before, after.
Qed.

Lemma includes_empty (s : string) : includes s EmptyString = true.
Proof. apply includes_true. by exists EmptyString, s. Qed.

Lemma append_nil (b : string) : EmptyString +:+ b = b.
Proof. reflexivity. Qed.

Lemma append_cons (c : ascii) (a b : string) :
  String c a +:+ b = String c (a +:+ b).
Proof. reflexivity. Qed.

Lemma append_assoc (a b c : string) : (a +:+ b) +:+ c = a +:+ (b +:+ c).
Proof.
  induction a as [|x a IH]; [done|].
  change (String x ((a +:+ b) +:+ c) = String x (a +:+ (b +:+ c))).
  by rewrite IH.
Qed.

Lemma toLowerCase_append s t :
  toLowerCase (s +:+ t) = toLowerCase s +:+ toLowerCase t.
Proof.
  induction s as [|c s IH]; [done|]. rewrite append_cons. simpl.
  by rewrite IH, append_cons.
Qed.

Lemma all_ascii_complete (c : ascii) : c ∈ all_ascii.
Proof.
  unfold all_ascii. rewrite <- (ascii_nat_embedding c).
  apply list_elem_of_fmap_2, elem_of_seq.
  pose proof (nat_ascii_bounded c). lia.
Qed.

Lemma forallb_all_ascii (P : ascii → bool) :
  forallb P all_ascii = true → ∀ c, P c = true.
Proof.
  rewrite forallb_forall. intros H c.
  apply H, list_elem_of_In, all_ascii_complete.
Qed.

(** [toLowerCase] identifies exactly the strings that differ in the case
    of their letters. *)
Lemma lower_unit_same_letter (c d : ascii) :
  Ascii.eqb (lower_unit c) (lower_unit d) = same_letter c d.
Proof.
  assert (forallb (λ c, forallb (λ d,
            Bool.eqb (Ascii.eqb (lower_unit c) (lower_unit d)) (same_letter c d))
            all_ascii) all_ascii = true) as Hall by (vm_compute; reflexivity).
  pose proof (forallb_all_ascii _ Hall c) as Hc. cbv beta in Hc.
  pose proof (forallb_all_ascii _ Hc d) as Hd. cbv beta in Hd.
  by apply Bool.eqb_prop.
Qed.

Lemma toLowerCase_same (s t : string) :
  toLowerCase s = toLowerCase t ↔ same_up_to_case s t = true.
Proof.
  revert t. induction s as [|c s IH]; intros [|d t]; simpl; try done.
  rewrite andb_true_iff, <- IH, <- lower_unit_same_letter, Ascii.eqb_eq.
  split; [by intros [= -> ->] | by intros [-> ->]].
Qed.

Lemma toLowerCase_split (s x y : string) :
  toLowerCase s = x +:+ y →
  ∃ s1 s2 : string, s = s1 +:+ s2 ∧ toLowerCase s1 = x ∧ toLowerCase s2 = y.
Proof.
  revert s. induction x as [|c x IH]; intros s.
  - rewrite append_nil. intros Hs. by exists EmptyString, s.
  - rewrite append_cons. destruct s as [|d s]; [done|]. simpl.
    intros [= Hc Hs]. destruct (IH s Hs) as (s1 & s2 & -> & H1 & H2).
    exists (String d s1), s2. rewrite append_cons. simpl.
    by rewrite Hc, H1, H2.
Qed.

Lemma includes_ignoring_case (s sub : string) :
  includes (toLowerCase s) (toLowerCase sub) = true ↔
  contains_ignoring_case s sub.
Proof.
  rewrite includes_true. unfold substring_of, contains_ignoring_case. split.
  - intros (x & z & Hs).
    destruct (toLowerCase_split _ _ _ Hs) as (before & rest & -> & <- & Hrest).
    destruct (toLowerCase_split _ _ _ Hrest) as (found & after & -> & Hf & <-).
    exists before, found, after. split; [done|]. by apply toLowerCase_same.
  - intros (before & found & after & -> & Hsame%toLowerCase_same).
    exists (toLowerCase before), (toLowerCase after).
    by rewrite !toLowerCase_append, Hsame.
Qed.

End Strings.

(** ** Numbers: the doubles agree with the integers *)

Section Doubles.

Lemma forallb_seqZ (P : Z → bool) (m len : Z) :
  forallb P (seqZ m len) = true → ∀ x, m ≤ x < m + len → P x = true.
Proof.
  rewrite forallb_forall. intros H x Hx.
  apply H, list_elem_of_In, elem_of_seqZ, Hx.
Qed.

(** *** Whole numbers of at most 53 bits *)

Lemma digits2_pos_size p : digits2_pos p = Pos.size p.
Proof. induction p as [p IH|p IH|]; simpl; by rewrite ?IH. Qed.

Lemma shl_0 p : shl p 0 = p.
Proof. done. Qed.

Lemma shl_succ p n : 0 ≤ n → shl p (n + 1) = xO (shl p n).
Proof.
  intros Hn. destruct n as [|k|k]; [done| |lia].
  change (Z.pos k + 1) with (Z.pos (k + 1)). simpl.
  by rewrite Pos.add_1_r, Pos.iter_succ.
Qed.

Lemma shl_ind (P : Z → Prop) :
  P 0 → (∀ n, 0 ≤ n → P n → P (n + 1)) → ∀ n, 0 ≤ n → P n.
Proof. intros H0 Hs n Hn. by apply (natlike_ind P). Qed.

Lemma shl_value p n : 0 ≤ n → Z.pos (shl p n) = Z.pos p * 2 ^ n.
Proof.
  revert n. apply shl_ind.
  - simpl. lia.
  - intros n Hn IH. rewrite shl_succ, Z.pow_add_r by lia.
    rewrite Pos2Z.inj_xO, IH. lia.
Qed.

Lemma shl_digits p n :
  0 ≤ n → Z.pos (digits2_pos (shl p n)) = Z.pos (digits2_pos p) + n.
Proof.
  revert n. apply shl_ind.
  - simpl. lia.
  - intros n Hn IH. rewrite shl_succ by lia. simpl. lia.
Qed.

Lemma shl_shl p n k : 0 ≤ n → 0 ≤ k → shl (shl p n) k = shl p (n + k).
Proof.
  intros Hn. revert k. apply shl_ind.
  - by rewrite Z.add_0_r.
  - intros k Hk IH. rewrite Z.add_assoc, !shl_succ, IH by lia. done.
Qed.

Lemma iter_pos_iter {A : Type} (f : A → A) (k : positive) (x : A) :
  SpecFloat.iter_pos f k x = Pos.iter f x k.
Proof.
  revert x. induction k as [k IH|k IH|]; intros x; simpl.
  - by rewrite !IH, <- !Pos.iter_swap.
  - by rewrite !IH.
  - done.
Qed.

(** Shifting out zero bits is exact. *)
Lemma shr_shl p n (k : positive) :
  Z.pos k ≤ n →
  SpecFloat.iter_pos shr_1 k {| shr_m := Z.pos (shl p n); shr_r := false; shr_s := false |}
  = {| shr_m := Z.pos (shl p (n - Z.pos k)); shr_r := false; shr_s := false |}.
Proof.
  rewrite iter_pos_iter. revert n.
  induction k as [|k IH] using Pos.peano_ind; intros n Hn.
  - simpl. replace n with (n - 1 + 1) at 1 by lia.
    by rewrite shl_succ by lia.
  - rewrite Pos.iter_succ, IH by lia.
    replace (n - Z.pos k) with (n - Z.pos (Pos.succ k) + 1) by lia.
    by rewrite shl_succ by lia.
Qed.

Lemma binary_round_shl s q n :
  Z.pos (digits2_pos q) ≤ 53 → 0 ≤ n →
  binary_round prec emax s (shl q n) (- n) = whole s q.
Proof.
  intros Hd Hn. unfold binary_round, whole.
  set (d := Z.pos (digits2_pos q)) in *.
  rewrite shl_digits by done. fold d.
  replace (d + n + - n) with d by lia.
  assert (fexp prec emax d = d - 53) as Hfexp
    by (unfold fexp, emin, prec, emax; lia).
  rewrite Hfexp. unfold shl_align.
  assert (∀ m e, Z.pos (digits2_pos m) = 53 → e = d - 53 →
            binary_round_aux prec emax s (Z.pos m) e loc_Exact
            = S754_finite s m e) as Haux.
  { intros m e Hm He. unfold binary_round_aux, shr_fexp. simpl Zdigits2.
    rewrite Hm.
    assert (fexp prec emax (53 + e) - e = 0) as ->
      by (unfold fexp, emin, prec, emax; lia).
    simpl. rewrite Hm.
    assert (fexp prec emax (53 + e) - e = 0) as ->
      by (unfold fexp, emin, prec, emax; lia).
    simpl. destruct (Z.leb_spec e (emax - prec)); [done|].
    unfold emax, prec in *. lia. }
  destruct (d - 53 - - n) as [|k|k] eqn:Hk.
  - (* exactly 53 digits *)
    rewrite Haux; [|rewrite shl_digits by done; fold d; lia | lia].
    by replace (53 - d) with n by lia; replace (d - 53) with (- n) by lia.
  - (* more than 53 digits: the low bits are shifted out *)
    unfold binary_round_aux, shr_fexp. simpl Zdigits2.
    rewrite shl_digits by done. fold d.
    replace (d + n + - n) with d by lia. rewrite Hfexp, Hk.
    unfold shr at 1. simpl shr_record_of_loc. rewrite shr_shl by lia.
    simpl loc_of_shr_record. simpl round_nearest_even. simpl shr_m.
    simpl Zdigits2. rewrite shl_digits by lia. fold d.
    assert (fexp prec emax (d + (n - Z.pos k) + (- n + Z.pos k))
            - (- n + Z.pos k) = 0) as ->
      by (unfold fexp, emin, prec, emax; lia).
    simpl. replace (n - Z.pos k) with (53 - d) by lia.
    replace (- n + Z.pos k) with (d - 53) by lia.
    destruct (Z.leb_spec (d - 53) (emax - prec)); [done|].
    unfold emax, prec in *. lia.
  - (* fewer than 53 digits: zero bits are appended *)
    change (Pos.iter xO (shl q n) k) with (shl (shl q n) (Z.pos k)).
    rewrite shl_shl by lia.
    rewrite Haux; [|rewrite shl_digits by lia; fold d; lia | lia].
    by replace (n + Z.pos k) with (53 - d) by lia.
Qed.

Lemma digits_lower p : 2 ^ Z.pos (digits2_pos p) ≤ 2 * Z.pos p.
Proof.
  rewrite digits2_pos_size. pose proof (Pos.size_le p) as Hle.
  apply Pos2Z.pos_le_pos in Hle. rewrite Pos2Z.inj_pow in Hle. exact Hle.
Qed.

Lemma digits_upper p : Z.pos p < 2 ^ Z.pos (digits2_pos p).
Proof.
  rewrite digits2_pos_size. pose proof (Pos.size_gt p) as Hgt.
  apply Pos2Z.pos_lt_pos in Hgt. rewrite Pos2Z.inj_pow in Hgt. exact Hgt.
Qed.

Lemma digits_bound p : Z.pos p < 2 ^ 53 → Z.pos (digits2_pos p) ≤ 53.
Proof.
  intros Hp. pose proof (digits_lower p) as Hle.
  destruct (Z.le_gt_cases (Z.pos (digits2_pos p)) 53) as [|Hbig]; [done|].
  assert (2 ^ 54 ≤ 2 ^ Z.pos (digits2_pos p))
    by (apply Z.pow_le_mono_r; lia).
  lia.
Qed.

Lemma of_int_double z : Z.abs z < 2 ^ 53 → of_int z = double_of z.
Proof.
  intros Hz. destruct z as [|p|p]; [done| |]; unfold of_int; simpl;
    apply (binary_round_shl _ p 0); first [apply digits_bound; lia | lia].
Qed.

Lemma SFabs_double z : SFabs (double_of z) = double_of (Z.abs z).
Proof. by destruct z. Qed.

Lemma whole_compare p q :
  Z.pos p < 2 ^ 53 → Z.pos q < 2 ^ 53 →
  SFcompare (whole false p) (whole false q) = Some (Pos.compare p q).
Proof.
  intros Hp Hq. unfold whole. cbn [SFcompare]. f_equal.
  pose proof (digits_bound p Hp) as Hdp. pose proof (digits_bound q Hq) as Hdq.
  pose proof (digits_lower p). pose proof (digits_upper p).
  pose proof (digits_lower q). pose proof (digits_upper q).
  set (dp := Z.pos (digits2_pos p)) in *. set (dq := Z.pos (digits2_pos q)) in *.
  destruct (Z.compare_spec (dp - 53) (dq - 53)) as [Heq|Hlt|Hgt].
  - assert (dp = dq) as Hd by lia. rewrite Hd.
    rewrite Pos.compare_cont_spec.
    assert (∀ x, Pos.switch_Eq Eq x = x) as -> by (by intros []).
    rewrite !Pos2Z.inj_compare, !shl_value by lia.
    symmetry. apply Zmult_compare_compat_r.
    apply Z.lt_gt, Z.pow_pos_nonneg; lia.
  - symmetry. apply Pos.compare_lt_iff. apply Pos2Z.pos_lt_pos.
    assert (2 ^ dp ≤ 2 ^ (dq - 1)) by (apply Z.pow_le_mono_r; lia).
    assert (2 ^ dq = 2 * 2 ^ (dq - 1))
      by (rewrite <- Z.pow_succ_r by lia; f_equal; lia).
    lia.
  - symmetry. apply Pos.compare_gt_iff. apply Pos2Z.pos_lt_pos.
    assert (2 ^ dq ≤ 2 ^ (dp - 1)) by (apply Z.pow_le_mono_r; lia).
    assert (2 ^ dp = 2 * 2 ^ (dp - 1))
      by (rewrite <- Z.pow_succ_r by lia; f_equal; lia).
    lia.
Qed.

Lemma SFleb_double x y :
  0 ≤ x < 2 ^ 53 → Z.abs y < 2 ^ 53 →
  SFleb (double_of x) (double_of y) = (x <=? y).
Proof.
  intros Hx Hy. unfold SFleb.
  destruct x as [|p|p], y as [|q|q]; try lia; try done.
  simpl double_of. rewrite whole_compare by lia.
  change (Z.pos p <=? Z.pos q) with (p <=? q)%positive.
  unfold Pos.leb. by destruct (p ?= q)%positive.
Qed.

Lemma shl_align_whole p ez :
  Z.pos (digits2_pos p) ≤ 53 → ez ≤ Z.pos (digits2_pos p) - 53 →
  fst (shl_align (shl p (53 - Z.pos (digits2_pos p)))
                 (Z.pos (digits2_pos p) - 53) ez)
  = shl p (- ez).
Proof.
  set (d := Z.pos (digits2_pos p)). intros Hd Hez. unfold shl_align.
  destruct (ez - (d - 53)) as [|k|k] eqn:Hk; simpl; try lia.
  - f_equal. lia.
  - change (Pos.iter xO (shl p (53 - d)) k) with (shl (shl p (53 - d)) (Z.pos k)).
    rewrite shl_shl by lia. f_equal. lia.
Qed.

Lemma cond_Zopp_shl s p n :
  0 ≤ n → cond_Zopp s (Z.pos (shl p n)) = cond_Zopp s (Z.pos p) * 2 ^ n.
Proof.
  intros Hn. destruct s; simpl; rewrite shl_value by done; lia.
Qed.

Lemma binary_normalize_shl z n :
  Z.abs z < 2 ^ 53 → 0 ≤ n →
  binary_normalize prec emax (z * 2 ^ n) (- n) false = double_of z.
Proof.
  intros Hz Hn.
  assert (0 < 2 ^ n) as Hpow by (apply Z.pow_pos_nonneg; lia).
  destruct z as [|p|p]; simpl double_of.
  - done.
  - rewrite <- (shl_value p n) by done. simpl.
    apply binary_round_shl; [apply digits_bound; lia | done].
  - replace (Z.neg p * 2 ^ n) with (- (Z.pos p * 2 ^ n)) by lia.
    rewrite <- (shl_value p n) by done. simpl.
    apply binary_round_shl; [apply digits_bound; lia | done].
Qed.

Lemma sub_whole s1 s2 p q :
  Z.pos p < 2 ^ 53 → Z.pos q < 2 ^ 53 →
  Z.abs (cond_Zopp s1 (Z.pos p) - cond_Zopp s2 (Z.pos q)) < 2 ^ 53 →
  sub (whole s1 p) (whole s2 q)
  = double_of (cond_Zopp s1 (Z.pos p) - cond_Zopp s2 (Z.pos q)).
Proof.
  intros Hp Hq Hpq. unfold sub, whole. cbn [SFsub].
  pose proof (digits_bound p Hp) as Hdp. pose proof (digits_bound q Hq) as Hdq.
  rewrite (shl_align_whole p), (shl_align_whole q) by lia.
  set (ez := Z.min _ _).
  assert (ez ≤ 0) as Hez by (unfold ez; lia).
  rewrite <- (binary_normalize_shl _ (- ez)) by lia.
  rewrite !cond_Zopp_shl, Z.opp_involutive by lia. f_equal. lia.
Qed.

Lemma sub_double a c :
  Z.abs a < 2 ^ 53 → Z.abs c < 2 ^ 53 → Z.abs (a - c) < 2 ^ 53 →
  sub (double_of a) (double_of c) = double_of (a - c).
Proof.
  intros Ha Hc Hac.
  destruct a as [|p|p], c as [|q|q]; try done.
  - apply (sub_whole false false p q); simpl; lia.
  - apply (sub_whole false true p q); simpl; lia.
  - apply (sub_whole true false p q); simpl; lia.
  - apply (sub_whole true true p q); simpl; lia.
Qed.

(** On whole numbers of at most 53 bits whose difference has at most 53
    bits the doubles compute the test of slider_value as the integers do. *)
Lemma slider_in_doubles_exact (answer correctValue tolerance : Z) :
  Z.abs answer < 2 ^ 53 → Z.abs correctValue < 2 ^ 53 →
  Z.abs (answer - correctValue) < 2 ^ 53 → Z.abs tolerance < 2 ^ 53 →
  slider_in_doubles answer correctValue tolerance
  = (Z.abs (answer - correctValue) <=? tolerance).
Proof.
  intros Ha Hc Hac Ht. unfold slider_in_doubles.
  rewrite !of_int_double, sub_double, SFabs_double by lia.
  apply SFleb_double; lia.
Qed.

(** *** Numbers with one decimal digit *)

(** The order of the doubles is transitive. *)
Lemma SFleb_trans (x y z : spec_float) :
  SFleb x y = true → SFleb y z = true → SFleb x z = true.
Proof.
  unfold SFleb, SFcompare.
  destruct x as [sx|sx| |sx mx ex], y as [sy|sy| |sy my ey],
           z as [sz|sz| |sz mz ez];
    try done;
    repeat match goal with s : bool |- _ => destruct s end; try done;
    rewrite ?Pos.compare_cont_spec; simpl;
    destruct (Z.compare_spec ex ey), (Z.compare_spec ey ez),
             (Z.compare_spec ex ez); try done; try lia; subst;
    destruct (Pos.compare_spec mx my), (Pos.compare_spec my mz),
             (Pos.compare_spec mx mz); simpl; try done; try lia.
Qed.

Lemma nth_tenth_tenths (lo len k : Z) :
  lo ≤ k < lo + len → nth_tenth (list_to_map (tenths lo len)) k = tenth k.
Proof.
  intros Hk. unfold nth_tenth.
  rewrite (elem_of_list_to_map_1 (M := Zmap) (tenths lo len) k (tenth k)); [done| |].
  - assert ((tenths lo len).*1 = seqZ lo len) as ->; [|apply NoDup_seqZ].
    unfold tenths. induction (seqZ lo len) as [|x l IH]; [done|].
    csimpl. by rewrite IH.
  - unfold tenths. apply (list_elem_of_fmap_2 (λ k, (k, tenth k))).
    by apply elem_of_seqZ.
Qed.

Lemma tenths_elem (lo len k : Z) :
  lo ≤ k < lo + len → (k, tenth k) ∈ tenths lo len.
Proof.
  intros Hk. unfold tenths. apply (list_elem_of_fmap_2 (λ k, (k, tenth k))).
  by apply elem_of_seqZ.
Qed.

Lemma tenth_chain :
  forallb (λ t, SFleb (tenth t) (tenth t) && SFleb (tenth t) (tenth (t + 1)))
          (seqZ (-1) 1003)
  = true.
Proof. vm_compute. reflexivity. Qed.

Lemma tenth_monotone (t t' : Z) :
  -1 ≤ t → t ≤ t' → t' ≤ 1001 → SFleb (tenth t) (tenth t') = true.
Proof.
  intros Hlo Hle Hhi.
  assert (∀ n : nat, t + Z.of_nat n ≤ 1001 →
            SFleb (tenth t) (tenth (t + Z.of_nat n)) = true) as Hall.
  { induction n as [|n IH]; intros Hn.
    - rewrite Z.add_0_r.
      pose proof (forallb_seqZ _ _ _ tenth_chain t ltac:(lia)) as Hcell.
      cbv beta in Hcell. by apply andb_true_iff in Hcell as [? _].
    - apply (SFleb_trans _ (tenth (t + Z.of_nat n))); [apply IH; lia|].
      pose proof (forallb_seqZ _ _ _ tenth_chain (t + Z.of_nat n) ltac:(lia))
        as Hcell.
      cbv beta in Hcell. apply andb_true_iff in Hcell as [_ Hcell].
      by replace (t + Z.of_nat (S n)) with (t + Z.of_nat n + 1) by lia. }
  specialize (Hall (Z.to_nat (t' - t))).
  replace (t + Z.of_nat (Z.to_nat (t' - t))) with t' in Hall by lia.
  apply Hall. lia.
Qed.

Lemma whole_tenths_elem (from len n : Z) :
  from ≤ n < from + len → (10 * n, tenth (10 * n)) ∈ whole_tenths from len.
Proof.
  intros Hn. unfold whole_tenths.
  apply (list_elem_of_fmap_2 (λ n, (10 * n, tenth (10 * n)))).
  by apply elem_of_seqZ.
Qed.

(** Whole answers from 0 to 100 against the tenths from 0.0 to 100.0, and
    the tenths from 0.0 to 20.0 against each other. *)
Lemma slider_whole_table :
  forallb (λ '(a, fa),
             forallb (λ '(c, fc),
                        near_tenths (list_to_map (tenths (-1) 1003)) a fa c fc)
                     (tenths 0 1001))
          (whole_tenths 0 101)
  = true.
Proof.
  assert (let ts : Zmap spec_float := list_to_map (tenths (-1) 1003) in
          let us := tenths 0 1001 in
          forallb (λ '(a, fa),
                     forallb (λ '(c, fc), near_tenths ts a fa c fc) us)
                  (whole_tenths 0 101) = true) as H
    by (vm_compute; reflexivity).
  exact H.
Qed.

Lemma slider_decimal_table :
  forallb (λ '(a, fa),
             forallb (λ '(c, fc),
                        near_tenths (list_to_map (tenths (-1) 203)) a fa c fc)
                     (tenths 0 201))
          (tenths 0 201)
  = true.
Proof.
  assert (let ts : Zmap spec_float := list_to_map (tenths (-1) 203) in
          let us := tenths 0 201 in
          forallb (λ '(a, fa),
                     forallb (λ '(c, fc), near_tenths ts a fa c fc) us)
                  us = true) as H
    by (vm_compute; reflexivity).
  exact H.
Qed.

(** |a / 10 - c / 10| in doubles lies strictly between the tenths next to
    it. *)
Lemma slider_decimal_near (a c : Z) :
  0 ≤ a ≤ 1000 → 0 ≤ c ≤ 1000 →
  a mod 10 = 0 ∨ (a ≤ 200 ∧ c ≤ 200) →
  let d := SFabs (sub (tenth a) (tenth c)) in
  let k := Z.abs (a - c) in
  SFleb d (tenth (k + 1)) = true ∧ SFleb d (tenth (k - 1)) = false.
Proof.
  intros Ha Hc Hdomain d k.
  assert (∀ (us vs : list (Z * spec_float)) (len : Z),
            forallb (λ '(a, fa),
                       forallb (λ '(c, fc),
                                  near_tenths (list_to_map (tenths (-1) len))
                                              a fa c fc)
                               us) vs = true →
            (a, tenth a) ∈ vs → (c, tenth c) ∈ us → k + 1 < -1 + len →
            SFleb d (tenth (k + 1)) = true ∧ SFleb d (tenth (k - 1)) = false)
    as Huse.
  { intros us vs len Htable Hin_a Hin_c Hlen.
    rewrite forallb_forall in Htable.
    specialize (Htable _ (proj1 (list_elem_of_In _ _) Hin_a)).
    cbv beta iota in Htable. rewrite forallb_forall in Htable.
    specialize (Htable _ (proj1 (list_elem_of_In _ _) Hin_c)).
    cbv beta iota in Htable. unfold near_tenths in Htable.
    rewrite !(nth_tenth_tenths (-1) len) in Htable by lia.
    apply andb_true_iff in Htable as [Hle Hlt].
    split; [done | by apply negb_true_iff]. }
  destruct Hdomain as [Hwhole|[Ha' Hc']].
  - apply (Huse _ _ _ slider_whole_table); [| apply tenths_elem; lia | lia].
    replace a with (10 * (a / 10)) by (pose proof (Z.div_mod a 10); lia).
    apply whole_tenths_elem.
    enough (0 ≤ a / 10 ≤ 100) by lia.
    split; [apply Z.div_pos; lia | apply Z.div_le_upper_bound; lia].
  - apply (Huse _ _ _ slider_decimal_table);
      [apply tenths_elem; lia | apply tenths_elem; lia | lia].
Qed.

End Doubles.

(** ** Grading *)

Section Grading.

Import TestMode.

Variable question : Question.
Variable answer : value.

(** The branches of the [switch] of [checkAnswer]. *)

Lemma checkAnswer_strike_out :
  type question = "strike_out" →
  checkAnswer question answer =
    let* correct_ids_to_remove :=
      as_number_array (get (content question) "correct_ids_to_remove") in
    let correctIds := Set_new correct_ids_to_remove in
    match answer with
    | VUndefined | VNull => Returned false
    | VSet elems =>
        let answerSet := Set_new elems in
        Returned ((Set_size answerSet =? Set_size correctIds)
                  && forallb (λ id, Set_has correctIds id) answerSet)
    | _ => IllTyped
    end.
Proof. intros H. unfold checkAnswer. by rewrite H. Qed.

Lemma checkAnswer_ordering :
  type question = "ordering" →
  checkAnswer question answer =
    let* correctOrder := as_string_array (get (content question) "correct_order") in
    let* answerOrder := as_string_array answer in
    Returned (String.eqb (JSON_stringify answerOrder) (JSON_stringify correctOrder)).
Proof. intros H. unfold checkAnswer. by rewrite H. Qed.

Lemma checkAnswer_highlight :
  type question = "highlight" →
  checkAnswer question answer =
    let* correct_phrase := as_string (get (content question) "correct_phrase") in
    let* answer := as_string answer in
    Returned (includes (toLowerCase answer) (toLowerCase correct_phrase)
              || includes (toLowerCase correct_phrase) (toLowerCase answer)).
Proof. intros H. unfold checkAnswer. by rewrite H. Qed.

Lemma checkAnswer_slider_value :
  type question = "slider_value" →
  checkAnswer question answer =
    let* correctValue := as_double (get (content question) "correct_value") in
    let* tolerance := as_double (get (content question) "tolerance") in
    let* answer := as_double answer in
    Returned (SFleb (SFabs (sub answer correctValue)) tolerance).
Proof. intros H. unfold checkAnswer. by rewrite H. Qed.

End Grading.

Import TestMode.

(** C1, as the code has it.  A question whose type tag is not one of the
    eleven tags of [QuestionType] falls to the [default] branch: grading
    returns the boolean [false] for every answer, and signals nothing. *)
Theorem unknown_type_grades_false (question : Question) (answer : value) :
  type question ∉ QuestionType →
  checkAnswer question answer = Returned false.
Proof.
  intros Hunknown. unfold checkAnswer.
  repeat match goal with
         | |- context [String.eqb (type question) ?tag] =>
             destruct (String.eqb_spec (type question) tag) as [Heq|_];
             [ exfalso; apply Hunknown; rewrite Heq;
               apply (bool_decide_unpack _); by vm_compute | ]
         end.
  reflexivity.
Qed.

Lemma essay_unknown : type Samples.essay ∉ QuestionType.
Proof. apply (bool_decide_unpack _). by vm_compute. Qed.

Lemma unknown_type_grades_false_witness :
  checkAnswer Samples.essay (VString "Koalas sleep") = Returned false.
Proof. apply unknown_type_grades_false, essay_unknown. Defined.

(** C1 as stated fails: for the unknown tag [essay] grading does return a
    boolean, and it is [false]. *)
Lemma unknown_type_signals_no_error :
  (type Samples.essay ∉ QuestionType)
  ∧ (checkAnswer Samples.essay (VString "Koalas sleep") = Returned false).
Proof. split; [apply essay_unknown | reflexivity]. Qed.

(** C3.  A highlight question with a non-empty [correct_phrase] grades a
    string answer [true] exactly when, the case of the letters apart, the
    answer contains the phrase or the phrase contains the answer; the answer
    "the dog ran" to the phrase "dog" is correct, the answer "cat" is not,
    and the answer "The DOG ran" is correct as well. *)
Theorem highlight_symmetric_containment :
  (∀ (question : Question) (correct_phrase answer : string),
     type question = "highlight" →
     get (content question) "correct_phrase" = VString correct_phrase →
     correct_phrase ≠ EmptyString →
     ∃ grade : bool,
       checkAnswer question (VString answer) = Returned grade
       ∧ (grade = true ↔
          contains_ignoring_case answer correct_phrase
          ∨ contains_ignoring_case correct_phrase answer))
  ∧ checkAnswer Samples.highlight_dog (VString "the dog ran") = Returned true
  ∧ checkAnswer Samples.highlight_dog (VString "cat") = Returned false
  ∧ checkAnswer Samples.highlight_dog (VString "The DOG ran") = Returned true.
Proof.
  split; [|split_and!; reflexivity].
  intros question correct_phrase answer Htype Hphrase _.
  rewrite checkAnswer_highlight, Hphrase by done. simpl.
  eexists; split; [reflexivity|].
  by rewrite orb_true_iff, !includes_ignoring_case.
Qed.

Lemma highlight_symmetric_containment_witness :
  ∃ grade : bool,
    checkAnswer Samples.highlight_dog (VString "The Dog") = Returned grade
    ∧ (grade = true ↔
       contains_ignoring_case "The Dog" "dog"
       ∨ contains_ignoring_case "dog" "The Dog").
Proof.
  apply (proj1 highlight_symmetric_containment Samples.highlight_dog);
    [reflexivity | reflexivity | discriminate].
Defined.

(** C9.  Whatever the [correct_phrase] of a highlight question, the empty
    answer is graded [true]: the empty string occurs in every phrase. *)
Theorem highlight_empty_answer (question : Question) (correct_phrase : string) :
  type question = "highlight" →
  get (content question) "correct_phrase" = VString correct_phrase →
  checkAnswer question (VString EmptyString) = Returned true.
Proof.
  intros Htype Hphrase.
  rewrite checkAnswer_highlight, Hphrase by done. simpl.
  by rewrite includes_empty, orb_true_r.
Qed.

Lemma highlight_empty_answer_witness :
  checkAnswer Samples.highlight_dog (VString EmptyString) = Returned true.
Proof. apply (highlight_empty_answer _ "dog"); reflexivity. Defined.

(** C6, as the code has it.  The test of slider_value is made on doubles.
    For a whole answer, [correct_value] and [tolerance] below 2^53 in
    magnitude, with a distance from the answer to [correct_value] below 2^53
    too, the answer is graded [true] exactly when this distance is at most
    [tolerance], the bound included: for the value 50 and the tolerance 5,
    45 is correct and 44 is not.  For an answer, a
    [correct_value] and a [tolerance] with one decimal digit from 0.0 to
    100.0, where the answer is whole or the answer and [correct_value] are
    at most 20.0, the answer is graded [true] when the distance is less than
    [tolerance] and [false] when it is more. *)
Theorem slider_value_tolerance :
  (∀ (question : Question) (correct_value tolerance answer : Z),
     type question = "slider_value" →
     get (content question) "correct_value" = VNumber correct_value →
     get (content question) "tolerance" = VNumber tolerance →
     Z.abs correct_value < 2 ^ 53 → Z.abs tolerance < 2 ^ 53 →
     Z.abs answer < 2 ^ 53 → Z.abs (answer - correct_value) < 2 ^ 53 →
     ∃ grade : bool,
       checkAnswer question (VNumber answer) = Returned grade
       ∧ (grade = true ↔ Z.abs (answer - correct_value) ≤ tolerance))
  ∧ (∀ (question : Question) (correct_value tolerance a : Z) (answer : value),
       type question = "slider_value" →
       holds_tenths (get (content question) "correct_value") correct_value →
       holds_tenths (get (content question) "tolerance") tolerance →
       holds_tenths answer a →
       0 ≤ correct_value ≤ 1000 → 0 ≤ tolerance ≤ 1000 → 0 ≤ a ≤ 1000 →
       a mod 10 = 0 ∨ (a ≤ 200 ∧ correct_value ≤ 200) →
       ∃ grade : bool,
         checkAnswer question answer = Returned grade
         ∧ (Z.abs (a - correct_value) < tolerance → grade = true)
         ∧ (tolerance < Z.abs (a - correct_value) → grade = false))
  ∧ checkAnswer Samples.slider_50_5 (VNumber 45) = Returned true
  ∧ checkAnswer Samples.slider_50_5 (VNumber 44) = Returned false.
Proof.
  split_and!; [| |vm_compute; reflexivity..].
  - intros question correct_value tolerance answer Htype Hvalue Htolerance
      Hc Ht Ha Hac.
    rewrite checkAnswer_slider_value, Hvalue, Htolerance by done.
    cbn [as_double bind]. eexists; split; [reflexivity|].
    change (SFleb _ _) with (slider_in_doubles answer correct_value tolerance).
    rewrite slider_in_doubles_exact by done. apply Z.leb_le.
  - intros question correct_value tolerance a answer Htype Hvalue Htolerance
      Hanswer Hc Ht Ha Hdomain.
    unfold holds_tenths in *.
    rewrite checkAnswer_slider_value, Hvalue, Htolerance, Hanswer by done.
    cbn [bind]. eexists; split; [reflexivity|].
    destruct (slider_decimal_near a correct_value Ha Hc Hdomain) as [Hle Hlt].
    cbv zeta in Hle, Hlt. split.
    + intros Hin. eapply SFleb_trans; [exact Hle|].
      apply tenth_monotone; lia.
    + intros Hout. apply not_true_is_false. intros Hgrade.
      rewrite (SFleb_trans _ _ _ Hgrade) in Hlt; [done|].
      apply tenth_monotone; lia.
Qed.

Lemma slider_value_tolerance_witness :
  (∃ grade : bool,
     checkAnswer Samples.slider_50_5 (VNumber 55) = Returned grade
     ∧ (grade = true ↔ Z.abs (55 - 50) ≤ 5))
  ∧ (∃ grade : bool,
       checkAnswer Samples.slider_07_03 (VNumber 1) = Returned grade
       ∧ (Z.abs (10 - 7) < 3 → grade = true)
       ∧ (3 < Z.abs (10 - 7) → grade = false))
  ∧ (∃ grade : bool,
       checkAnswer Samples.slider_07_03 (decimal 11) = Returned grade
       ∧ (Z.abs (11 - 7) < 3 → grade = true)
       ∧ (3 < Z.abs (11 - 7) → grade = false)).
Proof.
  split_and!.
  - apply (proj1 slider_value_tolerance Samples.slider_50_5);
      first [reflexivity | lia].
  - apply (proj1 (proj2 slider_value_tolerance) Samples.slider_07_03 7 3 10);
      first [reflexivity | lia | by vm_compute | by left].
  - apply (proj1 (proj2 slider_value_tolerance) Samples.slider_07_03 7 3 11);
      first [reflexivity | lia | right; lia].
Defined.

(** C6 as stated fails at the bound.  The correct value 0.7 with the
    tolerance 0.3 grades the answer 1 [false] although 1 - 0.7 is 0.3: the
    doubles nearest to 0.7 and 0.3 are further apart.  And the correct value
    -1 with the tolerance 2^53 grades the answer 2^53 [true] although the
    distance is 2^53 + 1: the difference is rounded to 2^53. *)
Lemma slider_bound_in_doubles :
  (checkAnswer Samples.slider_07_03 (VNumber 1) = Returned false
   ∧ holds_tenths (VNumber 1) 10
   ∧ Z.abs (10 - 7) ≤ 3)
  ∧ (checkAnswer Samples.slider_2_53 (VNumber (2 ^ 53)) = Returned true
     ∧ ¬ Z.abs (2 ^ 53 - -1) ≤ 2 ^ 53).
Proof.
  split_and!; [by vm_compute | by vm_compute | lia | by vm_compute | lia].
Qed.

(** ** Sets: [new Set(elems)] against the finite set of the elements *)

Section Sets.

Implicit Types (s elems : list Z) (x : Z).

Lemma foldl_Set_add_elem elems s x :
  x ∈ foldl Set_add s elems ↔ x ∈ s ∨ x ∈ elems.
Proof.
  revert s. induction elems as [|y elems IH]; intros s; simpl.
  - rewrite elem_of_nil. tauto.
  - rewrite IH, elem_of_cons. unfold Set_add. case_decide as Hy.
    + split; [tauto|]. intros [?|[->|?]]; tauto.
    + rewrite elem_of_app, list_elem_of_singleton. tauto.
Qed.

Lemma foldl_Set_add_NoDup elems s :
  NoDup s → NoDup (foldl Set_add s elems).
Proof.
  revert s. induction elems as [|y elems IH]; intros s Hs; simpl; [done|].
  apply IH. unfold Set_add. case_decide; [done|].
  apply NoDup_app. split_and!; [done | | apply NoDup_singleton].
  intros x Hx ->%list_elem_of_singleton. done.
Qed.

Lemma Set_new_elem elems x : x ∈ Set_new elems ↔ x ∈ elems.
Proof. unfold Set_new. rewrite foldl_Set_add_elem, elem_of_nil. tauto. Qed.

Lemma Set_new_NoDup elems : NoDup (Set_new elems).
Proof. apply foldl_Set_add_NoDup, NoDup_nil_2. Qed.

(** The size of the Set is the cardinality of the set of its elements. *)
Lemma Set_size_card elems :
  Set_size (Set_new elems) = Z.of_nat (size (list_to_set elems : gset Z)).
Proof.
  unfold Set_size. f_equal.
  rewrite <- (size_list_to_set (C := gset Z)) by apply Set_new_NoDup.
  f_equal. apply set_eq. intros x.
  by rewrite !elem_of_list_to_set, Set_new_elem.
Qed.

Lemma Set_has_true elems x : Set_has (Set_new elems) x = true ↔ x ∈ elems.
Proof. unfold Set_has. by rewrite bool_decide_eq_true, Set_new_elem. Qed.

End Sets.

Lemma mapM_as_number (ns : list Z) :
  mapM as_number (VNumber <$> ns) = Returned ns.
Proof. induction ns as [|n ns IH]; csimpl; [done | by rewrite IH]. Qed.

Lemma mapM_as_string (ss : list string) :
  mapM as_string (VString <$> ss) = Returned ss.
Proof. induction ss as [|s ss IH]; csimpl; [done | by rewrite IH]. Qed.

(** The grade of a strike_out answer, in terms of finite sets. *)
Lemma strike_out_grade (question : Question) (ids answer : list Z) :
  type question = "strike_out" →
  get (content question) "correct_ids_to_remove" = VArray (VNumber <$> ids) →
  ∃ grade : bool,
    checkAnswer question (VSet answer) = Returned grade
    ∧ (grade = true ↔
       size (list_to_set answer : gset Z) = size (list_to_set ids : gset Z)
       ∧ ∀ x, x ∈ answer → x ∈ ids).
Proof.
  intros Htype Hids.
  rewrite checkAnswer_strike_out, Hids by done.
  unfold as_number_array. simpl. rewrite mapM_as_number. simpl.
  eexists; split; [reflexivity|].
  rewrite andb_true_iff, Z.eqb_eq, !Set_size_card, forallb_forall.
  split.
  - intros [Hsize Hall]. split; [lia|].
    intros x Hx. apply Set_has_true, Hall, list_elem_of_In, Set_new_elem, Hx.
  - intros [Hsize Hall]. split; [lia|].
    intros x Hx. apply Set_has_true, Hall, Set_new_elem, list_elem_of_In, Hx.
Qed.

(** C4.  The grade of a strike_out answer depends on the set of the selected
    indices only, not on the order in which they were selected; it is [true]
    exactly when that set has as many members as the set of
    [correct_ids_to_remove] and all its members belong to it.  Against
    [[1, 3]], the selections {1, 3} and {3, 1} are both correct. *)
Theorem strike_out_order_irrelevant :
  (∀ (question : Question) (ids : list Z),
     type question = "strike_out" →
     get (content question) "correct_ids_to_remove" = VArray (VNumber <$> ids) →
     (∀ answer answer' : list Z,
        (∀ x, x ∈ answer ↔ x ∈ answer') →
        checkAnswer question (VSet answer) = checkAnswer question (VSet answer'))
     ∧ (∀ answer : list Z,
          ∃ grade : bool,
            checkAnswer question (VSet answer) = Returned grade
            ∧ (grade = true ↔
               size (list_to_set answer : gset Z) = size (list_to_set ids : gset Z)
               ∧ ∀ x, x ∈ answer → x ∈ ids)))
  ∧ checkAnswer Samples.strike_out_1_3 (VSet [1; 3]) = Returned true
  ∧ checkAnswer Samples.strike_out_1_3 (VSet [3; 1]) = Returned true.
Proof.
  split; [|split; reflexivity].
  intros question ids Htype Hids. split; [|intros; by apply strike_out_grade].
  intros answer answer' Hsame.
  destruct (strike_out_grade question ids answer Htype Hids) as (g & -> & Hg).
  destruct (strike_out_grade question ids answer' Htype Hids) as (g' & -> & Hg').
  f_equal. apply eq_true_iff_eq. rewrite Hg, Hg'.
  assert (list_to_set answer =@{gset Z} list_to_set answer') as ->
    by (apply set_eq; intros x; by rewrite !elem_of_list_to_set).
  by setoid_rewrite Hsame.
Qed.

Lemma strike_out_order_irrelevant_witness :
  checkAnswer Samples.strike_out_1_3 (VSet [1; 3; 4])
  = checkAnswer Samples.strike_out_1_3 (VSet [4; 3; 1; 3]).
Proof.
  apply (proj1 (proj1 strike_out_order_irrelevant Samples.strike_out_1_3 [1; 3]
                  eq_refl eq_refl)).
  intros x. rewrite !elem_of_cons, !elem_of_nil. tauto.
Defined.

(** ** JSON.stringify is injective on arrays of strings *)

Section Stringify.

Lemma diverge_append (s t x y : string) :
  diverge s t = true → s +:+ x ≠ t +:+ y.
Proof.
  revert t. induction s as [|a s IH]; intros [|b t]; simpl; try done.
  destruct (Ascii.eqb_spec a b) as [->|Hne].
  - intros Hd Heq. injection Heq as Heq. by apply (IH t).
  - intros _ Heq. by injection Heq.
Qed.

(** The escapes form a prefix code, and none starts like the closing
    quote. *)
Lemma quote_char_table (c d : ascii) :
  Ascii.eqb c d || diverge (quote_char c) (quote_char d) = true.
Proof.
  assert (forallb (λ c, forallb (λ d,
            Ascii.eqb c d || diverge (quote_char c) (quote_char d)) all_ascii)
            all_ascii = true) as Hall by (vm_compute; reflexivity).
  apply (forallb_all_ascii
           (λ d, Ascii.eqb c d || diverge (quote_char c) (quote_char d))).
  exact (forallb_all_ascii
           (λ c, forallb (λ d,
              Ascii.eqb c d || diverge (quote_char c) (quote_char d)) all_ascii)
           Hall c).
Qed.

Lemma quote_char_prefix_free (c d : ascii) (x y : string) :
  quote_char c +:+ x = quote_char d +:+ y → c = d ∧ x = y.
Proof.
  intros Heq.
  destruct (orb_prop _ _ (quote_char_table c d)) as [Hcd|Hcd].
  - apply Ascii.eqb_eq in Hcd as ->. split; [done|].
    by apply (inj (String.app (quote_char d))).
  - by apply diverge_append with (x := x) (y := y) in Hcd.
Qed.

Lemma quote_char_not_closing (c : ascii) (x y : string) :
  quote_char c +:+ x ≠ String dquote y.
Proof.
  assert (forallb (λ c, diverge (quote_char c) (String dquote EmptyString))
            all_ascii = true) as Hall by (vm_compute; reflexivity).
  apply (diverge_append _ (String dquote EmptyString) x y).
  exact (forallb_all_ascii
           (λ c, diverge (quote_char c) (String dquote EmptyString)) Hall c).
Qed.

Lemma quote_body_inj (s t x y : string) :
  quote_body s +:+ String dquote x = quote_body t +:+ String dquote y →
  s = t ∧ x = y.
Proof.
  revert t. induction s as [|c s IH]; intros [|d t]; cbn [quote_body];
    rewrite ?append_nil, ?append_assoc.
  - intros Heq. by injection Heq.
  - intros Heq. symmetry in Heq. by apply quote_char_not_closing in Heq.
  - intros Heq. by apply quote_char_not_closing in Heq.
  - intros [-> Heq]%quote_char_prefix_free.
    by apply IH in Heq as [-> ->].
Qed.

Lemma QuoteJSONString_inj (s t x y : string) :
  QuoteJSONString s +:+ x = QuoteJSONString t +:+ y → s = t ∧ x = y.
Proof.
  unfold QuoteJSONString.
  rewrite !append_cons, !append_assoc, !append_cons, !append_nil.
  intros Heq. injection Heq as Heq. by apply quote_body_inj.
Qed.

Lemma QuoteJSONString_head (s : string) :
  ∃ rest : string, QuoteJSONString s = String dquote rest.
Proof. by eexists. Qed.

Lemma join_comma_cons (p : string) (rest : list string) :
  join_comma (p :: rest) =
    p +:+ match rest with
          | [] => EmptyString
          | _ => String "," (join_comma rest)
          end.
Proof.
  destruct rest; [|done]. cbn [join_comma].
  induction p as [|c p IH]; [done|]. rewrite append_cons. by f_equal.
Qed.

Lemma join_comma_quoted_inj (a b : list string) :
  join_comma (QuoteJSONString <$> a) +:+ "]"
  = join_comma (QuoteJSONString <$> b) +:+ "]" →
  a = b.
Proof.
  revert b. induction a as [|s a IH]; intros [|t b];
    rewrite ?fmap_nil, ?fmap_cons, ?join_comma_cons; [done | | | ].
  - destruct (QuoteJSONString_head t) as [r ->]. done.
  - destruct (QuoteJSONString_head s) as [r ->]. done.
  - rewrite !append_assoc. intros [-> Heq]%QuoteJSONString_inj. f_equal.
    destruct a as [|s' a], b as [|t' b];
      rewrite ?append_cons, ?append_nil in Heq; [done | done | done |].
    injection Heq as Heq. by apply IH.
Qed.

Lemma JSON_stringify_inj (a b : list string) :
  JSON_stringify a = JSON_stringify b → a = b.
Proof.
  unfold JSON_stringify. intros Heq. injection Heq as Heq.
  by apply join_comma_quoted_inj.
Qed.

End Stringify.

(** ** Ordering *)

Lemma ordering_grade (question : Question) (correct_order answer : list string) :
  type question = "ordering" →
  get (content question) "correct_order" = VArray (VString <$> correct_order) →
  ∃ grade : bool,
    checkAnswer question (VArray (VString <$> answer)) = Returned grade
    ∧ (grade = true ↔ answer = correct_order).
Proof.
  intros Htype Horder.
  rewrite checkAnswer_ordering, Horder by done.
  unfold as_string_array. cbn [as_array bind]. rewrite !mapM_as_string.
  cbn [bind].
  eexists; split; [reflexivity|].
  rewrite String.eqb_eq. split; [apply JSON_stringify_inj | by intros ->].
Qed.

Lemma transpose_differs {A : Type} (i j : nat) (l : list A) (x y : A) :
  l !! i = Some x → l !! j = Some y → x ≠ y → transpose i j l ≠ l.
Proof.
  intros Hi Hj Hxy Heq. unfold transpose in Heq. rewrite Hi, Hj in Heq.
  assert (i < length l)%nat as Hlt by eauto using lookup_lt_Some.
  assert ((<[i:=y]> (<[j:=x]> l)) !! i = Some y) as Hy
    by (apply list_lookup_insert_eq; by rewrite length_insert).
  rewrite Heq, Hi in Hy. congruence.
Qed.

(** C5, as the code has it.  An ordering answer is graded [true] exactly
    when it equals [correct_order] element by element.  Exchanging two
    positions of the correct answer that hold different ids gives an answer
    graded [false]; this covers every two distinct positions when no id
    occurs twice in [correct_order]. *)
Theorem ordering_elementwise (question : Question) (correct_order : list string) :
  type question = "ordering" →
  get (content question) "correct_order" = VArray (VString <$> correct_order) →
  (∀ answer : list string,
     ∃ grade : bool,
       checkAnswer question (VArray (VString <$> answer)) = Returned grade
       ∧ (grade = true ↔ answer = correct_order))
  ∧ (∀ (i j : nat) (x y : string),
       correct_order !! i = Some x → correct_order !! j = Some y → x ≠ y →
       checkAnswer question (VArray (VString <$> transpose i j correct_order))
       = Returned false)
  ∧ (NoDup correct_order →
     ∀ i j : nat,
       i ≠ j → (i < length correct_order)%nat → (j < length correct_order)%nat →
       checkAnswer question (VArray (VString <$> transpose i j correct_order))
       = Returned false).
Proof.
  intros Htype Horder.
  assert (∀ (i j : nat) (x y : string),
            correct_order !! i = Some x → correct_order !! j = Some y → x ≠ y →
            checkAnswer question (VArray (VString <$> transpose i j correct_order))
            = Returned false) as Hswap.
  { intros i j x y Hi Hj Hxy.
    destruct (ordering_grade question correct_order (transpose i j correct_order)
                Htype Horder) as (grade & -> & Hgrade).
    f_equal. apply not_true_is_false. rewrite Hgrade.
    by apply (transpose_differs i j correct_order x y). }
  split_and!; [intros; by apply ordering_grade | done |].
  intros Hnodup i j Hij Hi Hj.
  destruct (lookup_lt_is_Some_2 correct_order i Hi) as [x Hx].
  destruct (lookup_lt_is_Some_2 correct_order j Hj) as [y Hy].
  apply (Hswap i j x y Hx Hy). intros ->.
  by apply Hij, (NoDup_lookup correct_order i j y).
Qed.

Lemma ordering_elementwise_witness :
  checkAnswer Samples.ordering_A_B_C
    (VArray (VString <$> transpose 0 2 [ "A"; "B"; "C" ]%string))
  = Returned false.
Proof.
  refine (proj1 (proj2 (ordering_elementwise Samples.ordering_A_B_C
                          [ "A"; "B"; "C" ]%string eq_refl eq_refl))
                0%nat 2%nat "A"%string "C"%string eq_refl eq_refl _).
  discriminate.
Defined.

(** The editor issues the id of a new item from the number of items, so
    removing the first item of the default content and adding one yields a
    [correct_order] with a repeated id. *)
Lemma editor_repeats_id :
  ∃ value : OrderingForm.OrderingContent,
    OrderingForm.removeItem 0 OrderingForm.getDefaultContent = Returned value
    ∧ OrderingForm.correct_order (OrderingForm.addItem value)
      = [ "B"; "C"; "C" ]%string.
Proof. eexists. split; reflexivity. Qed.

(** C5 as stated fails: with that [correct_order], exchanging the positions
    1 and 2 of the correct answer gives an answer that is graded [true]. *)
Lemma transposition_graded_true :
  get (content Samples.ordering_B_C_C) "correct_order"
  = VArray (VString <$> [ "B"; "C"; "C" ]%string)
  ∧ (1 ≠ 2)%nat
  ∧ checkAnswer Samples.ordering_B_C_C
      (VArray (VString <$> transpose 1 2 [ "B"; "C"; "C" ]%string))
    = Returned true.
Proof. split_and!; [reflexivity | discriminate | reflexivity]. Qed.

(** ** The session *)

Section Session.

Variable questions : list Question.

Lemma screen_InProgress (st : State) :
  screen questions st = InProgress → questions ≠ [] ∧ isComplete st = false.
Proof.
  unfold screen. destruct questions; simpl; [done|].
  by destruct (isComplete st).
Qed.

Lemma screen_Completion (st : State) :
  screen questions st = Completion → questions ≠ [] ∧ isComplete st = true.
Proof.
  unfold screen. destruct questions; simpl; [done|].
  by destruct (isComplete st).
Qed.

Lemma rendered_screen (st : State) (c : Control) :
  rendered questions st c = true →
  match c with
  | TryAgain => screen questions st = Completion
  | _ => screen questions st = InProgress
  end.
Proof. unfold rendered. by destruct (screen questions st), c. Qed.

Lemma handleSubmitAnswer_keeps (st st' : State) :
  handleSubmitAnswer questions st = Returned st' →
  currentIndex st' = currentIndex st
  ∧ results st' = results st
  ∧ isComplete st' = isComplete st.
Proof.
  unfold handleSubmitAnswer. intros H.
  destruct (currentAnswer st); try (by injection H as <-);
    destruct (currentQuestion questions st) as [q|]; try done; simpl in H;
    destruct (checkAnswer q _); try done; simpl in H; by injection H as <-.
Qed.

(** The effect of [handleNextQuestion] on a state that shows a question. *)
Lemma handleNextQuestion_spec (st : State) (question : Question) :
  questions !! currentIndex st = Some question →
  ∃ st' : State,
    handleNextQuestion questions st = Returned st'
    ∧ results st' =
        results st ++ [ {| questionId := id question;
                           isCorrect := isCurrentCorrect st;
                           userAnswer := currentAnswer st |} ]
    ∧ if decide (currentIndex st + 1 = length questions)%nat
      then isComplete st' = true
      else currentIndex st' = (currentIndex st + 1)%nat
           ∧ currentAnswer st' = VNull
           ∧ showFeedback st' = false
           ∧ isComplete st' = isComplete st.
Proof.
  intros Hq. pose proof (lookup_lt_Some _ _ _ Hq) as Hlt.
  unfold handleNextQuestion, currentQuestion. rewrite Hq. simpl.
  destruct (Z.ltb_spec (Z.of_nat (currentIndex st))
              (Z.of_nat (length questions) - 1)) as [Hlast|Hlast];
    eexists; (split; [reflexivity|]); simpl; (split; [done|]);
    case_decide; try done; lia.
Qed.

Lemma step_session_ok (st st' : State) :
  session_ok questions st → step questions st st' → session_ok questions st'.
Proof.
  intros Hok Hstep. destruct Hstep as [c st st' Hrendered Hhandle].
  apply rendered_screen in Hrendered.
  destruct c; simpl in Hhandle.
  - apply screen_InProgress in Hrendered as [_ Hc].
    apply handleSubmitAnswer_keeps in Hhandle as (Hi & Hr & Hc').
    unfold session_ok in *. by rewrite Hc', Hi, Hr.
  - apply screen_InProgress in Hrendered as [Hne Hc].
    unfold session_ok in Hok. rewrite Hc in Hok. destruct Hok as [Hlen Hidx].
    destruct (lookup_lt_is_Some_2 questions (currentIndex st) (Hidx Hne)) as [q Hq].
    destruct (handleNextQuestion_spec st q Hq) as (st2 & Hst2 & Hres & Hcase).
    rewrite Hst2 in Hhandle. injection Hhandle as <-.
    pose proof (lookup_lt_Some _ _ _ Hq) as Hlt.
    unfold session_ok. case_decide as Hlast.
    + rewrite Hcase, Hres, length_app. simpl. split; [lia|].
      revert Hst2. unfold handleNextQuestion, currentQuestion. rewrite Hq. simpl.
      destruct (Z.ltb_spec (Z.of_nat (currentIndex st))
                  (Z.of_nat (length questions) - 1)); [lia|].
      by intros [= <-].
    + destruct Hcase as (Hi & _ & _ & Hc'). rewrite Hc', Hc, Hres, length_app, Hi.
      simpl. split; [lia|]. intros _. lia.
  - injection Hhandle as <-. unfold session_ok. simpl.
    split; [done|]. intros Hne. destruct questions; [done | simpl; lia].
  - injection Hhandle as <-. done.
Qed.

Lemma reachable_session_ok (st : State) :
  reachable questions st → session_ok questions st.
Proof.
  induction 1 as [|st st' _ IH Hstep].
  - split; [done|]. intros Hne. destruct questions; [done | simpl; lia].
  - by apply (step_session_ok st).
Qed.

Lemma play_reachable (script : list Control) (st st' : State) :
  reachable questions st → play questions script st = Some st' →
  reachable questions st'.
Proof.
  revert st. induction script as [|c script IH]; intros st Hst; simpl.
  - by intros [= <-].
  - destruct (rendered questions st c) eqn:Hrendered; [|done].
    destruct (handle questions c st) as [st2|] eqn:Hhandle; [|done].
    apply IH. apply (reachable_step questions st); [done|].
    by apply (step_control questions c).
Qed.

End Session.

(** C7.  While a question is shown, the Next control exists only when the
    feedback is shown.  Using it appends one record, made of the id of the
    current question, the grade kept by the last check and the current
    answer, to the results; the test is then complete if the question was the
    last one, and otherwise the index grows by one, the answer is [null]
    again and the feedback is hidden. *)
Theorem advance_transition (questions : list Question) (st : State) :
  reachable questions st →
  screen questions st = InProgress →
  (rendered questions st Next = true → showFeedback st = true)
  ∧ (showFeedback st = true →
     rendered questions st Next = true
     ∧ ∃ (question : Question) (st' : State),
         questions !! currentIndex st = Some question
         ∧ handle questions Next st = Returned st'
         ∧ results st' =
             results st ++ [ {| questionId := id question;
                                isCorrect := isCurrentCorrect st;
                                userAnswer := currentAnswer st |} ]
         ∧ if decide (currentIndex st + 1 = length questions)%nat
           then isComplete st' = true
                ∧ screen questions st' = Completion
           else currentIndex st' = (currentIndex st + 1)%nat
                ∧ currentAnswer st' = VNull
                ∧ showFeedback st' = false
                ∧ screen questions st' = InProgress).
Proof.
  intros Hreach Hscreen.
  assert (rendered questions st Next = showFeedback st) as Hnext
    by (unfold rendered; by rewrite Hscreen).
  split; [by rewrite Hnext|]. intros Hshown. split; [by rewrite Hnext|].
  pose proof (reachable_session_ok questions st Hreach) as Hok.
  destruct (screen_InProgress questions st Hscreen) as [Hne Hc].
  unfold session_ok in Hok. rewrite Hc in Hok. destruct Hok as [_ Hidx].
  destruct (lookup_lt_is_Some_2 questions (currentIndex st) (Hidx Hne)) as [q Hq].
  destruct (handleNextQuestion_spec questions st q Hq) as (st' & Hst' & Hres & Hcase).
  exists q, st'. split_and!; [done | done | done |].
  assert ((length questions =? 0)%nat = false) as Hlen
    by (destruct questions; [done | reflexivity]).
  case_decide.
  - split; [done|]. unfold screen. by rewrite Hlen, Hcase.
  - destruct Hcase as (Hi & Ha & Hs & Hc'). split_and!; try done.
    unfold screen. by rewrite Hlen, Hc', Hc.
Qed.

Lemma first_checked_reachable :
  reachable Samples.three_questions Samples.first_checked.
Proof.
  apply (play_reachable _ [ AnswerChange (VNumber 45); CheckAnswer ] initial);
    [apply reachable_initial | reflexivity].
Qed.

Lemma advance_transition_witness :
  rendered Samples.three_questions Samples.first_checked Next = true
  ∧ ∃ (question : Question) (st' : State),
      Samples.three_questions !! currentIndex Samples.first_checked = Some question
      ∧ handle Samples.three_questions Next Samples.first_checked = Returned st'
      ∧ results st' =
          results Samples.first_checked
          ++ [ {| questionId := id question;
                  isCorrect := isCurrentCorrect Samples.first_checked;
                  userAnswer := currentAnswer Samples.first_checked |} ]
      ∧ if decide (currentIndex Samples.first_checked + 1
                   = length Samples.three_questions)%nat
        then isComplete st' = true
             ∧ screen Samples.three_questions st' = Completion
        else currentIndex st' = (currentIndex Samples.first_checked + 1)%nat
             ∧ currentAnswer st' = VNull
             ∧ showFeedback st' = false
             ∧ screen Samples.three_questions st' = InProgress.
Proof.
  apply (proj2 (advance_transition Samples.three_questions Samples.first_checked
                  first_checked_reachable eq_refl)).
  reflexivity.
Defined.

(** ** The score *)

(** Every count of correct answers, for every test of one to thirty-nine
    questions. *)
Lemma percentage_table :
  forallb (λ total,
             forallb (λ correct, percentage_checked correct total)
                     (seqZ 0 (total + 1)))
          (seqZ 1 100)
  = true.
Proof. vm_compute. reflexivity. Qed.

Lemma percentage_checked_spec (correct total : Z) :
  0 < total ≤ 100 → 0 ≤ correct ≤ total →
  percentage_near correct total = true
  ∧ percentage_ok correct total || half_missed correct total = true.
Proof.
  intros Htotal Hcorrect.
  pose proof (forallb_seqZ _ 1 100 percentage_table total) as Hrow.
  cbv beta in Hrow.
  pose proof (forallb_seqZ _ 0 (total + 1) (Hrow ltac:(lia)) correct) as Hcell.
  cbv beta in Hcell. specialize (Hcell ltac:(lia)).
  unfold percentage_checked in Hcell.
  unfold percentage_near, percentage_ok.
  destruct (percentage correct total) as [score| |]; [|done..].
  apply andb_true_iff in Hcell as [-> ->]. done.
Qed.

Lemma percentage_rounds (correct total : Z) :
  0 < total ≤ 100 → 0 ≤ correct ≤ total →
  ¬ (correct = 23 ∧ total = 40) → ¬ (correct = 46 ∧ total = 80) →
  percentage correct total = Int (round_percent correct total).
Proof.
  intros Htotal Hcorrect H40 H80.
  destruct (percentage_checked_spec correct total Htotal Hcorrect)
    as [_ Hcell].
  assert (half_missed correct total = false) as Hslip
    by (unfold half_missed; lia).
  rewrite Hslip, orb_false_r in Hcell.
  unfold percentage_ok in Hcell.
  destruct (percentage correct total); [|done..].
  by apply Z.eqb_eq in Hcell as ->.
Qed.

Lemma finalScore_complete (questions : list Question) (st : State) :
  isComplete st = true →
  finalScore questions st
  = percentage (correctAnswers st) (Z.of_nat (length questions)).
Proof. unfold finalScore. by intros ->. Qed.

Lemma correctAnswers_bounds (st : State) :
  0 ≤ correctAnswers st ≤ Z.of_nat (length (results st)).
Proof.
  unfold correctAnswers.
  pose proof (List.filter_length_le isCorrect (results st)). lia.
Qed.

(** C2, as the code has it.  When a test of at most a hundred questions is
    complete, and the correct answers are not 23 of 40 or 46 of 80,
    [finalScore] is round(100 * correct / total), and [passed] tells whether
    it reaches the threshold, which is the [pass_score] of the node when the
    node is known and its [pass_score] is not 0, and 70 otherwise.  With two
    correct answers out of three the score is 67, which fails at the pass
    score 70 and passes at 60. *)
Theorem final_score_and_pass :
  (∀ (node : option PassageNode) (questions : list Question) (st : State),
     reachable questions st →
     isComplete st = true →
     0 < Z.of_nat (length questions) ≤ 100 →
     ¬ (correctAnswers st = 23 ∧ Z.of_nat (length questions) = 40) →
     ¬ (correctAnswers st = 46 ∧ Z.of_nat (length questions) = 80) →
     let score := round_percent (correctAnswers st) (Z.of_nat (length questions)) in
     finalScore questions st = Int score
     ∧ (node = None → (passed node questions st = true ↔ 70 ≤ score))
     ∧ (∀ n, node = Some n → pass_score n ≠ 0 →
             (passed node questions st = true ↔ pass_score n ≤ score))
     ∧ (∀ n, node = Some n → pass_score n = 0 →
             (passed node questions st = true ↔ 70 ≤ score)))
  ∧ (∃ st : State,
       play Samples.three_questions Samples.two_of_three initial = Some st
       ∧ isComplete st = true
       ∧ correctAnswers st = 2
       ∧ finalScore Samples.three_questions st = Int 67
       ∧ passed (Some (Samples.node_with 70)) Samples.three_questions st = false
       ∧ passed (Some (Samples.node_with 60)) Samples.three_questions st = true
       ∧ passed None Samples.three_questions st = false).
Proof.
  split; [|eexists; split_and!; reflexivity].
  intros node questions st Hreach Hcomplete Htotal H40 H80 score.
  pose proof (reachable_session_ok questions st Hreach) as Hok.
  unfold session_ok in Hok. rewrite Hcomplete in Hok. destruct Hok as [Hlen _].
  pose proof (correctAnswers_bounds st) as Hbounds. rewrite Hlen in Hbounds.
  assert (finalScore questions st = Int score) as Hscore
    by (rewrite finalScore_complete by done; apply percentage_rounds;
        first [done | lia]).
  split; [done|]. unfold passed. rewrite Hscore. simpl.
  split_and!.
  - intros ->. simpl. apply Z.leb_le.
  - intros n -> Hn. simpl. destruct (Z.eqb_spec (pass_score n) 0); [done|].
    apply Z.leb_le.
  - intros n -> Hn. simpl. rewrite Hn. simpl. apply Z.leb_le.
Qed.

Lemma three_questions_complete :
  ∃ st : State,
    play Samples.three_questions Samples.two_of_three initial = Some st
    ∧ isComplete st = true.
Proof. eexists. split; reflexivity. Qed.

Lemma final_score_and_pass_witness :
  ∃ st : State,
    play Samples.three_questions Samples.two_of_three initial = Some st
    ∧ finalScore Samples.three_questions st
      = Int (round_percent (correctAnswers st)
               (Z.of_nat (length Samples.three_questions)))
    ∧ (passed (Some (Samples.node_with 60)) Samples.three_questions st = true ↔
       pass_score (Samples.node_with 60)
       ≤ round_percent (correctAnswers st)
           (Z.of_nat (length Samples.three_questions))).
Proof.
  destruct three_questions_complete as (st & Hplay & Hcomplete).
  exists st. split; [done|].
  assert (reachable Samples.three_questions st) as Hreach
    by (by apply (play_reachable _ Samples.two_of_three initial);
          [apply reachable_initial|]).
  destruct (proj1 final_score_and_pass (Some (Samples.node_with 60))
              Samples.three_questions st Hreach Hcomplete)
    as (Hscore & _ & Hpass & _);
    [split; [reflexivity | by vm_compute] | by intros [_ [=]]..|].
  split; [done|]. apply Hpass; [reflexivity | discriminate].
Defined.

(** C2 as stated fails: for a node whose [pass_score] is 0, the completed
    test with two correct answers out of three has the score 67, which is at
    least the [pass_score], and yet [passed] is [false]. *)
Lemma pass_score_zero_not_passed :
  ∃ st : State,
    play Samples.three_questions Samples.two_of_three initial = Some st
    ∧ isComplete st = true
    ∧ finalScore Samples.three_questions st = Int 67
    ∧ ge (finalScore Samples.three_questions st)
         (pass_score (Samples.node_with 0)) = true
    ∧ passed (Some (Samples.node_with 0)) Samples.three_questions st = false.
Proof. eexists. split_and!; reflexivity. Qed.

(** The percentage is computed in double precision as (correct / total) *
    100: with twenty-three correct answers out of forty it is
    57.49999999999999 and [finalScore] is 57, where round(100 * 23 / 40) is
    58. *)
Lemma forty_questions_score :
  (λ st, (isComplete st, correctAnswers st, finalScore Samples.forty_questions st))
    <$> play Samples.forty_questions Samples.twenty_three_of_forty initial
  = Some (true, 23, Int 57)
  ∧ round_percent 23 40 = 58.
Proof. split; vm_compute; reflexivity. Qed.

(** C10.  For a node whose [pass_score] is 0 the threshold is 70, as when
    the node is unknown: [passed] tells whether [finalScore] is at least 70.
    The completed test with the score 67 is not passed. *)
Theorem zero_pass_score_uses_70 :
  (∀ (n : PassageNode) (questions : list Question) (st : State),
     pass_score n = 0 →
     passed (Some n) questions st = ge (finalScore questions st) 70
     ∧ passed (Some n) questions st = passed None questions st)
  ∧ (∃ st : State,
       play Samples.three_questions Samples.two_of_three initial = Some st
       ∧ isComplete st = true
       ∧ finalScore Samples.three_questions st = Int 67
       ∧ passed (Some (Samples.node_with 0)) Samples.three_questions st = false).
Proof.
  split; [|eexists; split_and!; reflexivity].
  intros n questions st Hzero. unfold passed, threshold. by rewrite Hzero.
Qed.

Lemma zero_pass_score_uses_70_witness :
  passed (Some (Samples.node_with 0)) Samples.three_questions initial
  = ge (finalScore Samples.three_questions initial) 70.
Proof.
  apply (proj1 zero_pass_score_uses_70 (Samples.node_with 0)). reflexivity.
Defined.

(** ** The village form *)

Section VillageForm.

Import Villages.

Variable st : Villages.State.
Variable values : VillageFormValues.t.

(** The cost that [handleSubmit] is about to send. *)
Lemma handleSubmit_cost (request : Request) (c : Z) :
  handleSubmit st values = Some request →
  cost_sent request = Some c →
  c = if isFirstVillage st then 0 else VillageFormValues.cost values.
Proof.
  unfold handleSubmit. destruct (editingVillage st) as [v|].
  - case_match eqn:Hkeys; [|done]. clear Hkeys. intros [= <-]. simpl.
    unfold changed. case_decide; [done|]. by intros [= <-].
  - intros [= <-]. simpl. by intros [= <-].
Qed.

Lemma handleSubmit_edit_first (v : Village.t) (request : Request) :
  editingVillage st = Some v →
  isFirstVillage st = true →
  handleSubmit st values = Some request →
  cost_sent request = None.
Proof.
  unfold handleSubmit, isFirstVillage. intros -> Hfirst%Z.eqb_eq.
  rewrite Hfirst. simpl. case_match eqn:Hkeys; [|done]. clear Hkeys.
  intros [= <-]. simpl. unfold changed. by case_decide.
Qed.

End VillageForm.

(** C8.  Whatever cost the user has entered, a request that [handleSubmit]
    sends for a first village carries the cost 0 or, when the first village
    is being edited, no cost at all; a cost other than 0 is sent only for a
    village that is not the first, and it is then the cost that the user
    entered.  Creating a village always sends a cost. *)
Theorem first_village_cost_forced_to_zero
    (st : Villages.State) (values : Villages.VillageFormValues.t) :
  (∀ (request : Villages.Request) (c : Z),
     Villages.handleSubmit st values = Some request →
     Villages.cost_sent request = Some c →
     (Villages.isFirstVillage st = true → c = 0)
     ∧ (c ≠ 0 →
        Villages.isFirstVillage st = false
        ∧ c = Villages.VillageFormValues.cost values))
  ∧ (Villages.editingVillage st = None →
     ∃ request : Villages.Request,
       Villages.handleSubmit st values = Some request
       ∧ Villages.cost_sent request =
           Some (if Villages.isFirstVillage st then 0
                 else Villages.VillageFormValues.cost values))
  ∧ (∀ (v : Villages.Village.t) (request : Villages.Request),
       Villages.editingVillage st = Some v →
       Villages.isFirstVillage st = true →
       Villages.handleSubmit st values = Some request →
       Villages.cost_sent request = None).
Proof.
  split_and!.
  - intros request c Hsubmit Hcost.
    pose proof (handleSubmit_cost st values request c Hsubmit Hcost) as Hc.
    destruct (Villages.isFirstVillage st); split; try done; intros; by subst.
  - intros Hcreate. unfold Villages.handleSubmit. rewrite Hcreate.
    by eexists.
  - intros v request. apply handleSubmit_edit_first.
Qed.

Lemma first_village_cost_forced_to_zero_witness :
  ∃ request : Villages.Request,
    Villages.handleSubmit Samples.no_village_yet Samples.cost_500 = Some request
    ∧ Villages.cost_sent request =
        Some (if Villages.isFirstVillage Samples.no_village_yet then 0
              else Villages.VillageFormValues.cost Samples.cost_500).
Proof.
  apply (proj1 (proj2 (first_village_cost_forced_to_zero
                         Samples.no_village_yet Samples.cost_500))).
  reflexivity.
Defined.

(** * Properties of the rest of the pages *)

(** ** StrikeOutQuestion: toggling words *)

Section Toggles.

Import StrikeOutQuestion.

Implicit Types (striked clicks : list Z) (index x : Z).

Lemma toggleStrike_elem index striked x :
  x ∈ toggleStrike index striked ↔
  (x = index ∧ index ∉ striked) ∨ (x ≠ index ∧ x ∈ striked).
Proof.
  unfold toggleStrike, Set_has, Set_delete, Set_add.
  case_bool_decide as Hin; rewrite Set_new_elem in Hin.
  - rewrite list_elem_of_In, filter_In, <- list_elem_of_In, Set_new_elem.
    rewrite negb_true_iff, Z.eqb_neq. intuition congruence.
  - rewrite decide_False by (by rewrite Set_new_elem).
    rewrite elem_of_app, list_elem_of_singleton, Set_new_elem.
    destruct (decide (x = index)); intuition congruence.
Qed.

Lemma toggleStrike_NoDup index striked : NoDup (toggleStrike index striked).
Proof.
  unfold toggleStrike, Set_has, Set_delete, Set_add.
  pose proof (Set_new_NoDup striked) as Hnd.
  case_bool_decide as Hin.
  - apply NoDup_ListNoDup, List.NoDup_filter, NoDup_ListNoDup, Hnd.
  - rewrite decide_False by done.
    apply NoDup_app. split_and!; [done | | apply NoDup_singleton].
    intros y Hy ->%list_elem_of_singleton. done.
Qed.

Lemma clicked_snoc clicks index :
  clicked (clicks ++ [index]) = toggleStrike index (clicked clicks).
Proof. unfold clicked. by rewrite foldl_app. Qed.

(** A word is struck exactly when it has been clicked an odd number of
    times. *)
Lemma clicked_elem clicks x :
  x ∈ clicked clicks ↔ Nat.odd (count_occ Z.eq_dec clicks x) = true.
Proof.
  induction clicks as [|index clicks IH] using rev_ind.
  - simpl. rewrite elem_of_nil. done.
  - rewrite clicked_snoc, toggleStrike_elem, IH, count_occ_app. simpl.
    destruct (Z.eq_dec index x) as [->|Hne].
    + rewrite Nat.add_1_r, Nat.odd_succ, <- Nat.negb_odd.
      destruct (Nat.odd _); simpl; intuition congruence.
    + rewrite Nat.add_0_r. intuition congruence.
Qed.

End Toggles.

(** X1 (StrikeOutQuestion.toggleStrike with checkAnswer).  After any
    sequence of clicks on words, starting from no answer, the selection
    holds the words clicked an odd number of times, each once; it is graded
    [true] exactly when these are the ids of [correct_ids_to_remove]. *)
Theorem clicks_grade (question : Question) (ids clicks : list Z) :
  type question = "strike_out" →
  get (content question) "correct_ids_to_remove" = VArray (VNumber <$> ids) →
  NoDup (StrikeOutQuestion.clicked clicks)
  ∧ (∀ x, x ∈ StrikeOutQuestion.clicked clicks ↔
          Nat.odd (count_occ Z.eq_dec clicks x) = true)
  ∧ ∃ grade : bool,
      checkAnswer question (VSet (StrikeOutQuestion.clicked clicks)) = Returned grade
      ∧ (grade = true ↔
         ∀ x, x ∈ ids ↔ Nat.odd (count_occ Z.eq_dec clicks x) = true).
Proof.
  intros Htype Hids. split_and!.
  - destruct clicks as [|index clicks _] using rev_ind; [apply NoDup_nil_2|].
    rewrite clicked_snoc. apply toggleStrike_NoDup.
  - apply clicked_elem.
  - destruct (strike_out_grade question ids (StrikeOutQuestion.clicked clicks)
                Htype Hids) as (grade & Hgrade & Hiff).
    exists grade. split; [done|]. rewrite Hiff. split.
    + intros [Hsize Hsub] x. rewrite <- clicked_elem.
      assert (list_to_set (StrikeOutQuestion.clicked clicks)
              =@{gset Z} list_to_set ids) as Heq.
      { apply set_subseteq_size_eq.
        - intros y. rewrite !elem_of_list_to_set. apply Hsub.
        - lia. }
      by rewrite <- (elem_of_list_to_set (C := gset Z)), <- Heq,
           elem_of_list_to_set.
    + intros Hsame.
      assert (list_to_set (StrikeOutQuestion.clicked clicks)
              =@{gset Z} list_to_set ids) as Heq.
      { apply set_eq. intros y.
        by rewrite !elem_of_list_to_set, Hsame, clicked_elem. }
      split; [by rewrite Heq|].
      intros x. by rewrite Hsame, clicked_elem.
Qed.

Lemma clicks_grade_witness :
  ∃ grade : bool,
    checkAnswer Samples.strike_out_1_3
      (VSet (StrikeOutQuestion.clicked [3; 2; 1; 2])) = Returned grade
    ∧ (grade = true ↔
       ∀ x, x ∈ [1; 3] ↔ Nat.odd (count_occ Z.eq_dec [3; 2; 1; 2] x) = true).
Proof.
  apply (proj2 (proj2 (clicks_grade Samples.strike_out_1_3 [1; 3] [3; 2; 1; 2]
                         eq_refl eq_refl))).
Defined.

(** ** Ordering: drags, arrows and the editor *)

Section Orders.

Context {A : Type}.
Implicit Types (l : list A) (x y : A) (i j : nat).

Lemma filter_Permutation_bool (f : A → bool) l l' :
  l ≡ₚ l' → List.filter f l ≡ₚ List.filter f l'.
Proof.
  induction 1 as [|x l l' _ IH|x y l|l l' l'' _ IH _ IH']; simpl.
  - done.
  - destruct (f x); [by constructor | done].
  - destruct (f x), (f y); try done. apply perm_swap.
  - by etrans.
Qed.

Lemma insert_Permutation_cons l j x y :
  l !! j = Some y → y :: <[j:=x]> l ≡ₚ x :: l.
Proof.
  revert j. induction l as [|z l IH]; intros [|j] Hj; simplify_eq/=.
  - apply perm_swap.
  - rewrite (perm_swap z y), (IH j Hj). apply perm_swap.
Qed.

Lemma swap_Permutation l i j x y :
  l !! i = Some x → l !! j = Some y → <[i:=y]> (<[j:=x]> l) ≡ₚ l.
Proof.
  revert i j. induction l as [|z l IH]; intros [|i] [|j] Hi Hj; simplify_eq/=.
  - done.
  - by apply insert_Permutation_cons.
  - by apply insert_Permutation_cons.
  - by rewrite (IH i j).
Qed.

End Orders.

Lemma handleDrop_spec (draggedIndex dropIndex : nat) (orderedIds : list string)
    (removed : string) :
  orderedIds !! draggedIndex = Some removed →
  ∃ newOrder : list string,
    OrderingQuestion.handleDrop draggedIndex dropIndex orderedIds = Returned newOrder
    ∧ newOrder ≡ₚ orderedIds
    ∧ ((dropIndex < length orderedIds)%nat →
       newOrder !! dropIndex = Some removed
       ∧ delete dropIndex newOrder = delete draggedIndex orderedIds)
    ∧ (dropIndex = draggedIndex → newOrder = orderedIds).
Proof.
  intros Hdragged. unfold OrderingQuestion.handleDrop. rewrite Hdragged.
  eexists. split; [reflexivity|].
  pose proof (lookup_lt_Some _ _ _ Hdragged) as Hlt.
  pose proof (length_delete orderedIds draggedIndex (ex_intro _ _ Hdragged))
    as Hlen.
  split_and!.
  - rewrite <- Permutation_middle, take_drop.
    symmetry. by apply delete_Permutation.
  - intros Hdrop.
    assert (length (take dropIndex (delete draggedIndex orderedIds)) = dropIndex)
      as Htake by (apply length_take_le; lia).
    split.
    + by apply list_lookup_middle.
    + rewrite <- Htake at 1. by rewrite delete_middle, take_drop.
  - intros ->. rewrite delete_take_drop.
    rewrite take_app_le, drop_app_ge by (rewrite length_take; lia).
    rewrite take_take, Nat.min_id, length_take_le, Nat.sub_diag by lia.
    by apply take_drop_middle.
Qed.

(** X2 (OrderingQuestion.handleDrop).  Dropping the dragged row on a row
    rearranges the ids: the new order has the same ids as often, the dragged
    id stands at the row dropped on and the other ids keep their relative
    order; dropping a row on itself changes nothing. *)
Theorem handleDrop_moves (draggedIndex dropIndex : nat) (orderedIds : list string) :
  (draggedIndex < length orderedIds)%nat →
  ∃ (removed : string) (newOrder : list string),
    orderedIds !! draggedIndex = Some removed
    ∧ OrderingQuestion.handleDrop draggedIndex dropIndex orderedIds = Returned newOrder
    ∧ newOrder ≡ₚ orderedIds
    ∧ ((dropIndex < length orderedIds)%nat →
       newOrder !! dropIndex = Some removed
       ∧ delete dropIndex newOrder = delete draggedIndex orderedIds)
    ∧ (dropIndex = draggedIndex → newOrder = orderedIds).
Proof.
  intros Hlt. destruct (lookup_lt_is_Some_2 _ _ Hlt) as [removed Hremoved].
  destruct (handleDrop_spec draggedIndex dropIndex orderedIds removed Hremoved)
    as (newOrder & ? & ? & ? & ?).
  by exists removed, newOrder.
Qed.

Lemma handleDrop_moves_witness :
  ∃ (removed : string) (newOrder : list string),
    [ "C"; "A"; "B" ]%string !! 0%nat = Some removed
    ∧ OrderingQuestion.handleDrop 0 2 [ "C"; "A"; "B" ]%string = Returned newOrder
    ∧ newOrder ≡ₚ [ "C"; "A"; "B" ]%string
    ∧ ((2 < length [ "C"; "A"; "B" ]%string)%nat →
       newOrder !! 2%nat = Some removed
       ∧ delete 2%nat newOrder = delete 0%nat [ "C"; "A"; "B" ]%string)
    ∧ (2%nat = 0%nat → newOrder = [ "C"; "A"; "B" ]%string).
Proof. apply handleDrop_moves. simpl. lia. Defined.

Lemma drags_Permutation (moves : list (nat * nat)) (orderedIds answer : list string) :
  OrderingQuestion.drags moves orderedIds = Returned answer →
  answer ≡ₚ orderedIds.
Proof.
  revert orderedIds. induction moves as [|[dragged dropped] moves IH];
    intros orderedIds; simpl.
  - by intros [= <-].
  - destruct (orderedIds !! dragged) as [removed|] eqn:Hdragged.
    + destruct (handleDrop_spec dragged dropped orderedIds removed Hdragged)
        as (newOrder & -> & Hperm & _). simpl.
      intros Hrest%IH. by etrans.
    + unfold OrderingQuestion.handleDrop. by rewrite Hdragged.
Qed.

(** X3 (OrderingQuestion.handleDrop with checkAnswer).  However the rows
    are dragged, the answer is a rearrangement of the ids shown at the
    start; so when [correct_order] is not a rearrangement of these ids, no
    sequence of drags gives an answer that is graded [true]. *)
Theorem drags_grade (question : Question) (correct_order shown : list string)
    (moves : list (nat * nat)) (answer : list string) :
  type question = "ordering" →
  get (content question) "correct_order" = VArray (VString <$> correct_order) →
  OrderingQuestion.drags moves shown = Returned answer →
  answer ≡ₚ shown
  ∧ (¬ correct_order ≡ₚ shown →
     checkAnswer question (VArray (VString <$> answer)) = Returned false).
Proof.
  intros Htype Horder Hdrags.
  pose proof (drags_Permutation moves shown answer Hdrags) as Hperm.
  split; [done|]. intros Hnot.
  destruct (ordering_grade question correct_order answer Htype Horder)
    as (grade & -> & Hgrade).
  f_equal. apply not_true_is_false. rewrite Hgrade. intros ->. by apply Hnot.
Qed.

Lemma drags_grade_witness :
  [ "A"; "C"; "B" ]%string ≡ₚ [ "C"; "A"; "B" ]%string
  ∧ (¬ [ "A"; "B"; "C" ]%string ≡ₚ [ "C"; "A"; "B" ]%string →
     checkAnswer Samples.ordering_A_B_C
       (VArray (VString <$> [ "A"; "C"; "B" ]%string)) = Returned false).
Proof.
  apply (drags_grade Samples.ordering_A_B_C [ "A"; "B"; "C" ]%string
           [ "C"; "A"; "B" ]%string [ (0, 1) ]%nat); reflexivity.
Defined.

Section Editor.

Import OrderingForm OrderingArrows.

Lemma filter_other_absent (ids : list string) (r : string) :
  r ∉ ids → List.filter (λ id, negb (String.eqb id r)) ids = ids.
Proof.
  induction ids as [|y ids IH]; [done|]. simpl.
  intros [Hne Hr]%not_elem_of_cons.
  destruct (String.eqb_spec y r) as [->|_]; [done|]. simpl.
  f_equal. by apply IH.
Qed.

Lemma filter_other_delete (ids : list string) (i : nat) (r : string) :
  NoDup ids → ids !! i = Some r →
  List.filter (λ id, negb (String.eqb id r)) ids = delete i ids.
Proof.
  revert i. induction ids as [|x ids IH]; intros [|i] Hnd Hi; simplify_eq/=.
  - apply NoDup_cons in Hnd as [Hr Hnd]. rewrite String.eqb_refl. simpl.
    by apply filter_other_absent.
  - apply NoDup_cons in Hnd as [Hx Hnd].
    destruct (String.eqb_spec x r) as [->|_].
    + exfalso. apply Hx. by eapply list_elem_of_lookup_2.
    + simpl. f_equal. by apply IH.
Qed.

Lemma addItem_order_ok (value : OrderingContent) :
  order_ok value → order_ok (addItem value).
Proof.
  unfold order_ok, item_ids, addItem. simpl. intros Hok.
  rewrite fmap_app. simpl. by rewrite Hok.
Qed.

Lemma moveInOrder_order_ok (fromIndex : nat) (direction : Direction)
    (value : OrderingContent) :
  (fromIndex < length (correct_order value))%nat →
  ∃ value' : OrderingContent,
    moveInOrder fromIndex direction value = Returned value'
    ∧ items value' = items value
    ∧ correct_order value' ≡ₚ correct_order value.
Proof.
  intros Hfrom. unfold moveInOrder.
  destruct (_ || _) eqn:Hout; [by eexists|].
  apply orb_false_iff in Hout as [Hlow%Z.ltb_ge Hhigh%Z.leb_gt].
  destruct (lookup_lt_is_Some_2 _ _ Hfrom) as [a Ha].
  destruct (lookup_lt_is_Some_2 (correct_order value)
              (Z.to_nat (match direction with
                         | up => Z.of_nat fromIndex - 1
                         | down => Z.of_nat fromIndex + 1
                         end))) as [b Hb]; [lia|].
  rewrite Ha, Hb. eexists. split_and!; [reflexivity | done |]. simpl.
  by apply swap_Permutation.
Qed.

Lemma removeItem_spec (index : nat) (value : OrderingContent) (item : OrderingItem) :
  items value !! index = Some item →
  removeItem index value =
    Returned {| items := delete index (items value);
                correct_order :=
                  List.filter (λ i, negb (String.eqb i (id item)))
                              (correct_order value);
                explanation := explanation value |}.
Proof. unfold removeItem. by intros ->. Qed.

End Editor.

(** X4 (OrderingForm.addItem, removeItem, moveInOrder).  The editor keeps
    [correct_order] a rearrangement of the ids of the items when an item is
    added or an arrow is used, and when an item is removed from items whose
    ids are all different. *)
Theorem editor_keeps_order (value : OrderingForm.OrderingContent) :
  order_ok value →
  order_ok (OrderingForm.addItem value)
  ∧ (∀ (fromIndex : nat) (direction : OrderingArrows.Direction),
       (fromIndex < length (OrderingForm.correct_order value))%nat →
       ∃ value' : OrderingForm.OrderingContent,
         OrderingArrows.moveInOrder fromIndex direction value = Returned value'
         ∧ OrderingForm.items value' = OrderingForm.items value
         ∧ order_ok value')
  ∧ (NoDup (item_ids value) →
     ∀ index : nat,
       (index < length (OrderingForm.items value))%nat →
       ∃ value' : OrderingForm.OrderingContent,
         OrderingForm.removeItem index value = Returned value'
         ∧ order_ok value'
         ∧ NoDup (item_ids value')).
Proof.
  intros Hok. split_and!.
  - by apply addItem_order_ok.
  - intros fromIndex direction Hfrom.
    destruct (moveInOrder_order_ok fromIndex direction value Hfrom)
      as (value' & Hmove & Hitems & Hperm).
    exists value'. split_and!; [done | done |].
    unfold order_ok, item_ids in *. by rewrite Hitems, Hperm.
  - intros Hnd index Hindex.
    destruct (lookup_lt_is_Some_2 _ _ Hindex) as [item Hitem].
    rewrite (removeItem_spec index value item Hitem).
    eexists. split; [reflexivity|].
    assert (item_ids value !! index = Some (OrderingForm.id item)) as Hid
      by (unfold item_ids; by rewrite list_lookup_fmap, Hitem).
    unfold order_ok, item_ids in *. simpl. rewrite list_fmap_delete. split.
    + rewrite (filter_Permutation_bool _ _ _ Hok).
      by rewrite (filter_other_delete _ index).
    + rewrite delete_take_drop.
      rewrite <- (take_drop index (OrderingForm.id <$> OrderingForm.items value))
        in Hnd.
      apply NoDup_app in Hnd as (Htake & Hdisj & Hdrop).
      apply NoDup_app. split_and!; [done | |].
      * intros x Hx Hx'. apply (Hdisj x Hx).
        rewrite <- (take_drop 1 (drop index _)), drop_drop, elem_of_app.
        right. by rewrite Nat.add_1_r.
      * rewrite <- (take_drop 1 (drop index _)) in Hdrop.
        apply NoDup_app in Hdrop as (_ & _ & Hdrop).
        by rewrite drop_drop, Nat.add_1_r in Hdrop.
Qed.

Lemma editor_keeps_order_witness :
  order_ok (OrderingForm.addItem OrderingForm.getDefaultContent).
Proof.
  apply (proj1 (editor_keeps_order OrderingForm.getDefaultContent
                  (Permutation_refl _))).
Defined.

(** X5 (OrderingForm.removeItem).  [removeItem] takes every occurrence of
    the id of the removed item out of [correct_order]: when another item
    has the same id, [correct_order] is no longer a rearrangement of the ids
    of the items, whatever it was before. *)
Theorem removeItem_repeated_id (index : nat)
    (value : OrderingForm.OrderingContent) (item : OrderingForm.OrderingItem) :
  OrderingForm.items value !! index = Some item →
  OrderingForm.id item
  ∈ OrderingForm.id <$> delete index (OrderingForm.items value) →
  ∃ value' : OrderingForm.OrderingContent,
    OrderingForm.removeItem index value = Returned value'
    ∧ OrderingForm.id item ∈ item_ids value'
    ∧ (OrderingForm.id item ∉ OrderingForm.correct_order value')
    ∧ ¬ order_ok value'.
Proof.
  intros Hitem Hrepeated.
  rewrite (removeItem_spec index value item Hitem).
  eexists. split; [reflexivity|]. unfold order_ok, item_ids. simpl.
  assert (OrderingForm.id item
          ∉ List.filter (λ i, negb (String.eqb i (OrderingForm.id item)))
              (OrderingForm.correct_order value)) as Hgone.
  { rewrite list_elem_of_In, filter_In, String.eqb_refl. by intros [_ ?]. }
  split_and!; [done | done |].
  intros Hperm. apply Hgone. by rewrite Hperm.
Qed.

Lemma removeItem_repeated_id_witness :
  ∃ value' : OrderingForm.OrderingContent,
    OrderingForm.removeItem 2
      {| OrderingForm.items :=
           [ {| OrderingForm.id := "B"; OrderingForm.content := EmptyString |};
             {| OrderingForm.id := "C"; OrderingForm.content := EmptyString |};
             {| OrderingForm.id := "C"; OrderingForm.content := EmptyString |} ];
         OrderingForm.correct_order := [ "B"; "C"; "C" ]%string;
         OrderingForm.explanation := EmptyString |} = Returned value'
    ∧ "C"%string ∈ item_ids value'
    ∧ ("C"%string ∉ OrderingForm.correct_order value')
    ∧ ¬ order_ok value'.
Proof.
  apply (removeItem_repeated_id 2 _
           {| OrderingForm.id := "C"; OrderingForm.content := EmptyString |});
    [reflexivity|].
  apply (bool_decide_unpack _). by vm_compute.
Defined.

(** ** The other branches of [checkAnswer] *)

Section Branches.

Variable question : Question.
Variable answer : value.

Lemma checkAnswer_multiple_choice :
  type question = "multiple_choice" →
  checkAnswer question answer =
    let* correctOption :=
      match get (content question) "options" with
      | VUndefined | VNull => Returned None
      | options =>
          let* options := as_object_array options in
          Returned (List.find (λ o, truthy (get o "is_correct")) options)
      end in
    strict_equals answer
      (match correctOption with
       | Some o => get o "id"
       | None => VUndefined
       end).
Proof. intros H. unfold checkAnswer. by rewrite H. Qed.

Lemma checkAnswer_swipe_decision :
  type question = "swipe_decision" →
  checkAnswer question answer =
    let* cards := as_object_array (get (content question) "cards") in
    let* swipes := mapM (λ c, as_string (get c "correct_swipe")) cards in
    let* answers := as_string_array answer in
    Returned (every_swipe swipes answers).
Proof. intros H. unfold checkAnswer. by rewrite H. Qed.

Lemma checkAnswer_fill_gap :
  type question = "fill_gap" →
  checkAnswer question answer =
    let* correct_answer := as_string (get (content question) "correct_answer") in
    let* answer := as_string answer in
    Returned (String.eqb (trim (toLowerCase answer))
                         (trim (toLowerCase correct_answer))).
Proof. intros H. unfold checkAnswer. by rewrite H. Qed.


Lemma checkAnswer_graph_point :
  type question = "graph_point" →
  checkAnswer question answer =
    let* point := as_object answer in
    let* x := as_number (get point "x") in
    let* y := as_number (get point "y") in
    let* targetX := as_number (get (content question) "target_x") in
    let* targetY := as_number (get (content question) "target_y") in
    let* radius := as_number (get (content question) "radius") in
    Returned (SFleb (distance (x - targetX) (y - targetY)) (of_int radius)).
Proof. intros H. unfold checkAnswer. by rewrite H. Qed.

End Branches.


(** ** Swipes *)

Section Swipes.

Implicit Types (swipes answers : list string).

Lemma imap_shift {A B : Type} (f : nat → A → B) (n : nat) (l : list A) :
  imap ((λ i x, f (n + i)%nat x) ∘ S) l = imap (λ i x, f (S n + i)%nat x) l.
Proof. apply imap_ext. intros i x _. simpl. f_equal. lia. Qed.

Lemma drop_S_tail {A : Type} (l : list A) (n : nat) :
  drop (S n) l = drop 1 (drop n l).
Proof. rewrite drop_drop. f_equal. lia. Qed.

Lemma swipe_count_from (all_swipes swipes answers : list string) (n : nat) :
  drop n all_swipes = swipes →
  let count :=
    length (List.filter (λ '(i, a),
                           match all_swipes !! i with
                           | Some correct_swipe => String.eqb a correct_swipe
                           | None => false
                           end)
                        (imap (λ i a, ((n + i)%nat, a)) answers)) in
  (count ≤ length swipes)%nat
  ∧ (count = length swipes ↔ take (length swipes) answers = swipes).
Proof.
  cbv zeta. revert n swipes.
  induction answers as [|a answers IH]; intros n swipes Hdrop.
  - simpl. destruct swipes; simpl; [done|]. split; [lia | done].
  - cbn [imap]. rewrite imap_shift. cbn [List.filter]. rewrite Nat.add_0_r.
    destruct swipes as [|s swipes].
    + assert (all_swipes !! n = None) as ->.
      { apply lookup_ge_None. apply drop_nil_inv in Hdrop. done. }
      specialize (IH (S n) [] ltac:(by rewrite drop_S_tail, Hdrop)).
      simpl in *. done.
    + assert (all_swipes !! n = Some s) as ->.
      { by rewrite <- (Nat.add_0_r n), <- lookup_drop, Hdrop. }
      specialize (IH (S n) swipes).
      destruct IH as [Hle Hiff].
      { by rewrite drop_S_tail, Hdrop. }
      destruct (String.eqb_spec a s) as [->|Hne]; simpl in *.
      * split; [lia|]. split.
        -- intros Hcount. f_equal. apply Hiff. lia.
        -- intros [= Htake]. f_equal. by apply Hiff.
      * split; [lia|]. split; [lia | by intros [= ? ?]].
Qed.

Lemma correctCount_spec swipes answers :
  (SwipeDecisionQuestion.correctCount swipes answers ≤ length swipes)%nat
  ∧ (SwipeDecisionQuestion.correctCount swipes answers = length swipes ↔
     take (length swipes) answers = swipes).
Proof. apply (swipe_count_from swipes swipes answers 0). done. Qed.

Lemma every_swipe_from (all_answers answers swipes : list string) (n : nat) :
  drop n all_answers = answers →
  forallb (λ '(i, correct_swipe),
             match all_answers !! i with
             | Some a => String.eqb correct_swipe a
             | None => false
             end)
          (imap (λ i s, ((n + i)%nat, s)) swipes) = true
  ↔ take (length swipes) answers = swipes.
Proof.
  revert n answers. induction swipes as [|s swipes IH]; intros n answers Hdrop.
  - done.
  - cbn [imap]. rewrite imap_shift. cbn [forallb]. rewrite Nat.add_0_r.
    destruct answers as [|a answers].
    + assert (all_answers !! n = None) as ->.
      { apply lookup_ge_None. by apply drop_nil_inv in Hdrop. }
      done.
    + assert (all_answers !! n = Some a) as ->.
      { by rewrite <- (Nat.add_0_r n), <- lookup_drop, Hdrop. }
      rewrite andb_true_iff, (IH (S n) answers), String.eqb_eq.
      * simpl. split; [by intros [-> ->] | by intros [= -> ->]].
      * by rewrite drop_S_tail, Hdrop.
Qed.

Lemma every_swipe_spec swipes answers :
  every_swipe swipes answers = true ↔ take (length swipes) answers = swipes.
Proof. apply (every_swipe_from answers answers swipes 0). done. Qed.

End Swipes.

Lemma mapM_as_object (objects : list (gmap string value)) :
  mapM as_object (VObject <$> objects) = Returned objects.
Proof. induction objects as [|o objects IH]; csimpl; [done | by rewrite IH]. Qed.

Lemma mapM_field_strings (f : string) (objects : list (gmap string value))
    (strings : list string) :
  field_strings f objects strings →
  mapM (λ o : gmap string value, as_string (get o f)) objects = Returned strings.
Proof.
  unfold field_strings. revert strings.
  induction objects as [|o objects IH]; intros [|x strings]; csimpl; try done.
  intros [= -> Hrest]. simpl. by rewrite (IH strings Hrest).
Qed.

Lemma as_object_array_objects (objects : list (gmap string value)) :
  as_object_array (VArray (VObject <$> objects)) = Returned objects.
Proof. unfold as_object_array. cbn [as_array bind]. apply mapM_as_object. Qed.

(** X6 (checkAnswer, swipe_decision, and
    SwipeDecisionQuestion.correctCount).  Whatever else the cards hold, a
    list of swipes is graded [true] exactly when its first swipes, as many
    as there are cards, are the [correct_swipe] of the cards in order;
    swipes beyond the cards are ignored and too few swipes are graded
    [false].  The count that the completion card computes from the same
    list never exceeds the number of cards and equals it exactly when the
    grade is [true]. *)
Theorem swipes_grade (question : Question) (cards : list (gmap string value))
    (swipes answers : list string) :
  type question = "swipe_decision" →
  get (content question) "cards" = VArray (VObject <$> cards) →
  field_strings "correct_swipe" cards swipes →
  ∃ grade : bool,
    checkAnswer question (VArray (VString <$> answers)) = Returned grade
    ∧ (grade = true ↔ take (length swipes) answers = swipes)
    ∧ ((length answers < length swipes)%nat → grade = false)
    ∧ (SwipeDecisionQuestion.correctCount swipes answers ≤ length swipes)%nat
    ∧ (SwipeDecisionQuestion.correctCount swipes answers = length swipes ↔
       grade = true).
Proof.
  intros Htype Hcards Hswipes. rewrite (checkAnswer_swipe_decision _ _ Htype).
  rewrite Hcards, as_object_array_objects. cbn [bind].
  rewrite (mapM_field_strings _ _ _ Hswipes). cbn [bind].
  unfold as_string_array. cbn [as_array bind].
  rewrite mapM_as_string. cbn [bind].
  eexists. split; [reflexivity|].
  destruct (correctCount_spec swipes answers) as [Hle Hcount].
  split_and!.
  - apply every_swipe_spec.
  - intros Hshort. apply not_true_is_false. rewrite every_swipe_spec.
    intros Htake. apply (f_equal length) in Htake.
    rewrite length_take in Htake. lia.
  - done.
  - by rewrite Hcount, every_swipe_spec.
Qed.

Lemma swipes_grade_witness :
  ∃ grade : bool,
    checkAnswer MoreSamples.swipe_left_right
      (VArray (VString <$> [ "left"; "right"; "left" ]%string)) = Returned grade
    ∧ (grade = true ↔
       take (length [ "left"; "right" ]%string) [ "left"; "right"; "left" ]%string
       = [ "left"; "right" ]%string).
Proof.
  destruct (swipes_grade MoreSamples.swipe_left_right MoreSamples.two_cards
              [ "left"; "right" ]%string [ "left"; "right"; "left" ]%string
              eq_refl eq_refl eq_refl) as (grade & Hgrade & Htake & _).
  by exists grade.
Defined.

(** ** Matching *)

Section Matching.

Import MatchingQuestion.

Implicit Types (m : list (string * string)) (k v : string) (ids : list string).













End Matching.




(** ** The other grades *)

Lemma distance_table :
  forallb (λ dx, forallb (λ dy, forallb (λ r, distance_ok dx dy r) (seqZ (-2) 25))
                         (seqZ (-10) 21))
          (seqZ (-10) 21)
  = true.
Proof. vm_compute. reflexivity. Qed.

Lemma distance_exact (dx dy radius : Z) :
  -10 ≤ dx ≤ 10 → -10 ≤ dy ≤ 10 → -2 ≤ radius ≤ 22 →
  SFleb (distance dx dy) (of_int radius) = in_circle dx dy radius.
Proof.
  intros Hdx Hdy Hr.
  pose proof (forallb_seqZ _ (-10) 21 distance_table dx) as H1. cbv beta in H1.
  pose proof (forallb_seqZ _ (-10) 21 (H1 ltac:(lia)) dy) as H2. cbv beta in H2.
  pose proof (forallb_seqZ _ (-2) 25 (H2 ltac:(lia)) radius) as H3.
  cbv beta in H3. apply Bool.eqb_prop, H3. lia.
Qed.

(** X8 (checkAnswer, graph_point).  For a point and a target on the grid
    from 0 to 10 and a radius from -2 to 22, the answer is graded [true]
    exactly when the radius is not negative and the point lies in the closed
    disc around the target: the square root in double precision decides as
    exact arithmetic does, the boundary included. *)
Theorem graph_point_disc (question : Question) (x y targetX targetY radius : Z) :
  type question = "graph_point" →
  get (content question) "target_x" = VNumber targetX →
  get (content question) "target_y" = VNumber targetY →
  get (content question) "radius" = VNumber radius →
  0 ≤ x ≤ 10 → 0 ≤ y ≤ 10 → 0 ≤ targetX ≤ 10 → 0 ≤ targetY ≤ 10 →
  -2 ≤ radius ≤ 22 →
  ∃ grade : bool,
    checkAnswer question (point x y) = Returned grade
    ∧ (grade = true ↔
       0 ≤ radius
       ∧ (x - targetX) * (x - targetX) + (y - targetY) * (y - targetY)
         ≤ radius * radius).
Proof.
  intros Htype HtargetX HtargetY Hradius Hx Hy Htx Hty Hr.
  rewrite checkAnswer_graph_point by done. unfold point. cbn [as_object bind].
  unfold get at 1. rewrite lookup_insert_eq. cbn [default as_number bind].
  unfold get at 1. rewrite lookup_insert_ne, lookup_singleton_eq by done.
  cbn [default as_number bind].
  rewrite HtargetX, HtargetY, Hradius. cbn [as_number bind].
  eexists. split; [reflexivity|].
  rewrite distance_exact by lia. unfold in_circle.
  by rewrite andb_true_iff, !Z.leb_le.
Qed.

Lemma graph_point_disc_witness :
  ∃ grade : bool,
    checkAnswer MoreSamples.graph_5_5_5 (point 2 1) = Returned grade
    ∧ (grade = true ↔
       0 ≤ 5 ∧ (2 - 5) * (2 - 5) + (1 - 5) * (1 - 5) ≤ 5 * 5).
Proof.
  apply (graph_point_disc MoreSamples.graph_5_5_5 2 1 5 5 5);
    first [reflexivity | lia].
Defined.

Section Options.

Implicit Types (o : gmap string value) (options : list (gmap string value)).

Lemma find_first_correct (before after : list (gmap string value)) o :
  Forall (λ o', truthy (get o' "is_correct") = false) before →
  truthy (get o "is_correct") = true →
  List.find (λ o', truthy (get o' "is_correct")) (before ++ o :: after) = Some o.
Proof.
  intros Hbefore Ho. induction Hbefore as [|o' before Ho' _ IH]; simpl.
  - by rewrite Ho.
  - by rewrite Ho'.
Qed.

Lemma find_none_correct options :
  Forall (λ o', truthy (get o' "is_correct") = false) options →
  List.find (λ o', truthy (get o' "is_correct")) options = None.
Proof. induction 1 as [|o' options Ho' _ IH]; simpl; [done | by rewrite Ho']. Qed.

End Options.

(** X9 (checkAnswer, multiple_choice).  Only the first option marked
    correct counts: a string answer is graded [true] exactly when it is the
    id of that option, whatever is marked after it; when no option is marked
    correct, every string answer is graded [false]. *)
Theorem multiple_choice_first_correct (question : Question)
    (options : list (gmap string value)) :
  type question = "multiple_choice" →
  get (content question) "options" = VArray (VObject <$> options) →
  (∀ (before after : list (gmap string value)) (o : gmap string value)
     (correct answer : string),
     options = before ++ o :: after →
     Forall (λ o', truthy (get o' "is_correct") = false) before →
     truthy (get o "is_correct") = true →
     get o "id" = VString correct →
     ∃ grade : bool,
       checkAnswer question (VString answer) = Returned grade
       ∧ (grade = true ↔ answer = correct))
  ∧ (Forall (λ o', truthy (get o' "is_correct") = false) options →
     ∀ answer : string, checkAnswer question (VString answer) = Returned false).
Proof.
  intros Htype Hoptions.
  assert (∀ answer,
            checkAnswer question (VString answer)
            = strict_equals (VString answer)
                (match List.find (λ o, truthy (get o "is_correct")) options with
                 | Some o => get o "id"
                 | None => VUndefined
                 end)) as Hcheck.
  { intros answer. rewrite checkAnswer_multiple_choice, Hoptions by done.
    unfold as_object_array. cbn [as_array bind].
    by rewrite mapM_as_object. }
  split.
  - intros before after o correct answer -> Hbefore Ho Hid.
    rewrite Hcheck, find_first_correct, Hid by done. simpl.
    eexists. split; [reflexivity|]. apply String.eqb_eq.
  - intros Hnone answer. by rewrite Hcheck, find_none_correct.
Qed.

Lemma multiple_choice_first_correct_witness :
  (∃ grade : bool,
     checkAnswer MoreSamples.choice_b_c (VString "c") = Returned grade
     ∧ (grade = true ↔ "c"%string = "b"%string))
  ∧ Forall (λ o', truthy (get o' "is_correct") = false)
      [ MoreSamples.option_of "a" false ].
Proof.
  assert (Forall (λ o', truthy (get o' "is_correct") = false)
            [ MoreSamples.option_of "a" false ]) as Hbefore
    by (by apply Forall_singleton).
  split; [|done].
  apply (proj1 (multiple_choice_first_correct MoreSamples.choice_b_c
                  [ MoreSamples.option_of "a" false;
                    MoreSamples.option_of "b" true;
                    MoreSamples.option_of "c" true ] eq_refl eq_refl)
               [ MoreSamples.option_of "a" false ]
               [ MoreSamples.option_of "c" true ]
               (MoreSamples.option_of "b" true) "b"%string "c"%string
               eq_refl Hbefore eq_refl eq_refl).
Defined.

(** ** fill_gap: case and surrounding white space *)

Section Trim.

Implicit Types (s t w : string) (c : ascii).

Lemma append_nil_r s : s +:+ EmptyString = s.
Proof. induction s as [|c s IH]; [done|]. by rewrite append_cons, IH. Qed.

Lemma rev_app_spec s t : String.rev_app s t = String.rev s +:+ t.
Proof.
  unfold String.rev. revert t.
  induction s as [|c s IH]; intros t; simpl; [done|].
  rewrite (IH (String c t)), (IH (String c EmptyString)), append_assoc.
  by rewrite append_cons, append_nil.
Qed.

Lemma rev_cons c s : String.rev (String c s) = String.rev s +:+ String c EmptyString.
Proof. unfold String.rev at 1. simpl. apply rev_app_spec. Qed.

Lemma rev_append s t : String.rev (s +:+ t) = String.rev t +:+ String.rev s.
Proof.
  induction s as [|c s IH].
  - by rewrite append_nil, append_nil_r.
  - by rewrite append_cons, !rev_cons, IH, append_assoc.
Qed.

Lemma blank_append s t : blank (s +:+ t) = blank s && blank t.
Proof.
  induction s as [|c s IH]; [done|]. rewrite append_cons. simpl.
  by rewrite IH, andb_assoc.
Qed.

Lemma blank_rev s : blank (String.rev s) = blank s.
Proof.
  induction s as [|c s IH]; [done|]. rewrite rev_cons, blank_append, IH.
  simpl. by rewrite andb_true_r, andb_comm.
Qed.

Lemma trimStart_blank w s : blank w = true → trimStart (w +:+ s) = trimStart s.
Proof.
  induction w as [|c w IH]; [done|]. rewrite append_cons. simpl.
  intros [-> Hw]%andb_true_iff. by apply IH.
Qed.

Lemma trimStart_empty s : blank s = true → trimStart s = EmptyString.
Proof.
  intros Hs. rewrite <- (append_nil_r s). by rewrite trimStart_blank.
Qed.

Lemma trimStart_append s t :
  blank s = false → trimStart (s +:+ t) = trimStart s +:+ t.
Proof.
  induction s as [|c s IH]; [done|]. rewrite append_cons. simpl.
  destruct (is_white_space c); simpl; [apply IH | by rewrite append_cons].
Qed.

Lemma trimStart_not_blank s : blank s = false → blank (trimStart s) = false.
Proof.
  induction s as [|c s IH]; [done|]. simpl.
  destruct (is_white_space c) eqn:Hc; simpl; [apply IH | by rewrite Hc].
Qed.

Lemma trim_padded w1 s w2 :
  blank w1 = true → blank w2 = true → trim (w1 +:+ s +:+ w2) = trim s.
Proof.
  intros Hw1 Hw2. unfold trim. rewrite (trimStart_blank w1) by done.
  destruct (blank s) eqn:Hs.
  - rewrite (trimStart_empty s), (trimStart_empty (s +:+ w2)); [done | | done].
    by rewrite blank_append, Hs, Hw2.
  - rewrite trimStart_append by done. rewrite rev_append.
    rewrite (trimStart_blank (String.rev w2)); [done|].
    by rewrite blank_rev.
Qed.

Lemma lower_unit_white_space c : is_white_space c = true → lower_unit c = c.
Proof.
  assert (forallb (λ c, negb (is_white_space c) || Ascii.eqb (lower_unit c) c)
                  all_ascii = true) as Hall by (vm_compute; reflexivity).
  pose proof (forallb_all_ascii _ Hall c) as Hc. cbv beta in Hc.
  intros Hw. rewrite Hw in Hc. by apply Ascii.eqb_eq.
Qed.

Lemma toLowerCase_blank w : blank w = true → toLowerCase w = w.
Proof.
  induction w as [|c w IH]; [done|]. simpl.
  intros [Hc Hw]%andb_true_iff. by rewrite lower_unit_white_space, IH.
Qed.

End Trim.

(** X10 (checkAnswer, fill_gap).  An answer that is the correct answer up
    to the case of its letters, with any white space before and after it, is
    graded [true]. *)
Theorem fill_gap_padding (question : Question)
    (correct_answer answer before after : string) :
  type question = "fill_gap" →
  get (content question) "correct_answer" = VString correct_answer →
  toLowerCase answer = toLowerCase correct_answer →
  blank before = true → blank after = true →
  checkAnswer question (VString (before +:+ answer +:+ after)) = Returned true.
Proof.
  intros Htype Hcorrect Hsame Hbefore Hafter.
  rewrite checkAnswer_fill_gap, Hcorrect by done. cbn [as_string bind].
  rewrite !toLowerCase_append.
  rewrite (toLowerCase_blank before), (toLowerCase_blank after) by done.
  rewrite trim_padded, Hsame by done.
  by rewrite String.eqb_refl.
Qed.

Lemma fill_gap_padding_witness :
  toLowerCase "KOALA" = toLowerCase "Koala"
  ∧ checkAnswer MoreSamples.gap_koala (VString ("  " +:+ "KOALA" +:+ " "))
    = Returned true.
Proof.
  split; [reflexivity|].
  apply (fill_gap_padding MoreSamples.gap_koala "Koala" "KOALA" "  " " ");
    reflexivity.
Defined.

(** ** More on the session *)

Section MoreSession.

Variable questions : list Question.

Lemma reachable_guarded_reachable (st : State) :
  reachable_guarded questions st → reachable questions st.
Proof.
  induction 1 as [|st c st' _ IH _ Hrendered Hhandle].
  - apply reachable_initial.
  - apply (reachable_step questions st); [done|].
    by apply (step_control questions c).
Qed.

(** The state that [handleNextQuestion] returns. *)
Lemma handleNextQuestion_state (st st' : State) :
  handleNextQuestion questions st = Returned st' →
  ∃ question : Question,
    questions !! currentIndex st = Some question
    ∧ results st' =
        results st ++ [ {| questionId := id question;
                           isCorrect := isCurrentCorrect st;
                           userAnswer := currentAnswer st |} ]
    ∧ (showFeedback st' = true →
       showFeedback st = true
       ∧ currentIndex st' = currentIndex st
       ∧ currentAnswer st' = currentAnswer st
       ∧ isCurrentCorrect st' = isCurrentCorrect st).
Proof.
  unfold handleNextQuestion, currentQuestion.
  destruct (questions !! currentIndex st) as [q|]; [|done]. simpl.
  destruct (_ <? _); intros [= <-]; exists q; simpl; split_and!; done.
Qed.

(** The state that [handleSubmitAnswer] returns for an answer. *)
Lemma handleSubmitAnswer_state (st st' : State) :
  currentAnswer st ≠ VNull →
  handleSubmitAnswer questions st = Returned st' →
  ∃ (question : Question) (grade : bool),
    questions !! currentIndex st = Some question
    ∧ checkAnswer question (currentAnswer st) = Returned grade
    ∧ st' = {| currentIndex := currentIndex st;
               results := results st;
               isComplete := isComplete st;
               currentAnswer := currentAnswer st;
               showFeedback := true;
               isCurrentCorrect := grade |}.
Proof.
  intros Hanswer. unfold handleSubmitAnswer, currentQuestion.
  destruct (currentAnswer st) eqn:Ha; try done;
    (destruct (questions !! currentIndex st) as [q|]; [|done]); simpl;
    (destruct (checkAnswer q _) as [grade|] eqn:Hgrade; [|done]); simpl;
    intros [= <-]; by exists q, grade.
Qed.

Lemma step_records_follow (st st' : State) :
  session_ok questions st → records_follow questions st →
  step questions st st' → records_follow questions st'.
Proof.
  intros Hok Hfollow Hstep. destruct Hstep as [c st st' Hrendered Hhandle].
  pose proof (rendered_screen questions st c Hrendered) as Hscreen.
  destruct c; simpl in Hhandle.
  - apply handleSubmitAnswer_keeps in Hhandle as (_ & Hr & _).
    unfold records_follow. by rewrite Hr.
  - apply screen_InProgress in Hscreen as [_ Hc].
    unfold session_ok in Hok. rewrite Hc in Hok. destruct Hok as [Hlen _].
    apply handleNextQuestion_state in Hhandle as (q & Hq & Hres & _).
    intros i r. rewrite Hres. intros [Hi|[Hi Hr]]%lookup_app_Some.
    + by apply Hfollow.
    + apply list_lookup_singleton_Some in Hr as [Hzero <-].
      exists q. split; [|done].
      replace i with (currentIndex st) by lia. done.
  - injection Hhandle as <-. intros i r; simpl; by rewrite lookup_nil.
  - injection Hhandle as <-. done.
Qed.

Lemma reachable_records_follow (st : State) :
  reachable questions st → records_follow questions st.
Proof.
  induction 1 as [|st st' Hreach IH Hstep].
  - intros i r; simpl; by rewrite lookup_nil.
  - apply (step_records_follow st); [by apply reachable_session_ok | done..].
Qed.

Lemma reachable_guarded_graded (st : State) :
  reachable_guarded questions st →
  records_graded questions st ∧ feedback_graded questions st.
Proof.
  induction 1 as [|st c st' Hreach [Hrec Hfb] Hguard Hrendered Hhandle].
  - split; [intros i r; simpl; by rewrite lookup_nil | done].
  - pose proof (reachable_session_ok questions st
                  (reachable_guarded_reachable st Hreach)) as Hok.
    pose proof (rendered_screen questions st c Hrendered) as Hscreen.
    destruct c; simpl in Hhandle, Hguard.
    + apply screen_InProgress in Hscreen as [_ Hc].
      assert (currentAnswer st ≠ VNull) as Hanswer.
      { unfold rendered in Hrendered. destruct (screen questions st); try done.
        apply andb_true_iff in Hrendered as [_ Hnull].
        by destruct (currentAnswer st). }
      apply handleSubmitAnswer_state in Hhandle
        as (q & grade & Hq & Hgrade & ->); [|done].
      split; [done|]. intros _. by exists q.
    + apply screen_InProgress in Hscreen as [_ Hc].
      unfold session_ok in Hok. rewrite Hc in Hok. destruct Hok as [Hlen _].
      assert (showFeedback st = true) as Hshown
        by (unfold rendered in Hrendered;
            by destruct (screen questions st)).
      destruct (Hfb Hshown) as (q & Hq & Hanswer & Hgrade).
      apply handleNextQuestion_state in Hhandle as (q' & Hq' & Hres & Hkeep).
      assert (q' = q) as -> by congruence.
      split.
      * intros i r. rewrite Hres. intros [Hi|[Hi Hr]]%lookup_app_Some.
        -- by apply Hrec.
        -- apply list_lookup_singleton_Some in Hr as [Hzero <-].
           exists q. simpl. split_and!; try done.
           replace i with (currentIndex st) by lia. done.
      * intros Hshown'. destruct (Hkeep Hshown') as (_ & -> & -> & ->).
        by exists q.
    + injection Hhandle as <-.
      split; [intros i r; simpl; by rewrite lookup_nil | done].
    + injection Hhandle as <-. apply negb_true_iff in Hguard.
      split; [done|]. unfold feedback_graded. simpl. by rewrite Hguard.
Qed.

End MoreSession.

(** X11 (handleNextQuestion and the header of TestModePage).  In every
    state that the user can reach, the records follow the questions: the
    record at a place has the id of the question at that place.  While a
    question is shown there is one record for each earlier question, and the
    header shows no more correct answers than answered questions and no more
    answered questions than there are questions. *)
Theorem records_follow_questions (questions : list Question) (st : State) :
  reachable questions st →
  records_follow questions st
  ∧ (screen questions st = InProgress →
     length (results st) = currentIndex st
     ∧ TestModeHeader.totalAnswered st
       = (currentIndex st + (if showFeedback st then 1 else 0))%nat
     ∧ (TestModeHeader.correctCount st ≤ TestModeHeader.totalAnswered st)%nat
     ∧ (TestModeHeader.totalAnswered st ≤ length questions)%nat).
Proof.
  intros Hreach. split; [by apply reachable_records_follow|].
  intros [Hne Hc]%screen_InProgress.
  pose proof (reachable_session_ok questions st Hreach) as Hok.
  unfold session_ok in Hok. rewrite Hc in Hok. destruct Hok as [Hlen Hidx].
  specialize (Hidx Hne).
  pose proof (List.filter_length_le isCorrect (results st)) as Hfilter.
  unfold TestModeHeader.totalAnswered, TestModeHeader.correctCount.
  rewrite Hlen in *.
  destruct (showFeedback st), (isCurrentCorrect st); simpl;
    split_and!; try done; lia.
Qed.

Lemma records_follow_questions_witness :
  records_follow Samples.three_questions Samples.first_checked
  ∧ (screen Samples.three_questions Samples.first_checked = InProgress →
     length (results Samples.first_checked) = currentIndex Samples.first_checked
     ∧ TestModeHeader.totalAnswered Samples.first_checked
       = (currentIndex Samples.first_checked
          + (if showFeedback Samples.first_checked then 1 else 0))%nat
     ∧ (TestModeHeader.correctCount Samples.first_checked
        ≤ TestModeHeader.totalAnswered Samples.first_checked)%nat
     ∧ (TestModeHeader.totalAnswered Samples.first_checked
        ≤ length Samples.three_questions)%nat).
Proof.
  apply records_follow_questions, first_checked_reachable.
Defined.

(** X12 (handleSubmitAnswer with handleNextQuestion, and
    SwipeDecisionQuestion.handleSwipe).  In a session in which the answer
    changes only while the feedback is hidden, every record holds an answer
    that is not [null] and the grade that [checkAnswer] gives to that answer
    for the question at its place.  The page does not see to it that the
    session is such a one: when a swipe is reported after the answer is
    checked, the record holds the grade [false] for an answer that is graded
    [true]. *)
Theorem records_hold_grades :
  (∀ (questions : list Question) (st : State),
     reachable_guarded questions st →
     ∀ (i : nat) (r : QuestionResult),
       results st !! i = Some r →
       ∃ question : Question,
         questions !! i = Some question
         ∧ questionId r = id question
         ∧ userAnswer r ≠ VNull
         ∧ checkAnswer question (userAnswer r) = Returned (isCorrect r))
  ∧ (∃ (st : State) (r : QuestionResult),
       MoreSamples.late_swipe = Some st
       ∧ reachable [ MoreSamples.swipe_left_right ] st
       ∧ results st = [ r ]
       ∧ isCorrect r = false
       ∧ checkAnswer MoreSamples.swipe_left_right (userAnswer r) = Returned true).
Proof.
  split.
  - intros questions st Hreach. apply (reachable_guarded_graded questions st Hreach).
  - eexists _, _. split_and!; [reflexivity | | reflexivity..].
    apply (play_reachable _
             [ AnswerChange (VArray (VString <$> [ "left" ]%string));
               CheckAnswer;
               AnswerChange (VArray (VString <$> [ "left"; "right" ]%string));
               Next ] initial);
      [apply reachable_initial | reflexivity].
Qed.

Lemma second_question_reachable :
  reachable_guarded Samples.three_questions MoreSamples.second_question.
Proof.
  eapply (reachable_guarded_step _ _ Next);
    [ eapply (reachable_guarded_step _ _ CheckAnswer);
      [ eapply (reachable_guarded_step _ _ (AnswerChange (VNumber 45)));
        [ apply reachable_guarded_initial | reflexivity.. ]
      | reflexivity.. ]
    | reflexivity.. ].
Qed.

Lemma records_hold_grades_witness :
  ∃ question : Question,
    Samples.three_questions !! 0%nat = Some question
    ∧ 4 = id question ∧ VNumber 45 ≠ VNull
    ∧ checkAnswer question (VNumber 45) = Returned true.
Proof.
  apply (proj1 records_hold_grades Samples.three_questions
           MoreSamples.second_question second_question_reachable 0%nat
           {| questionId := 4; isCorrect := true; userAnswer := VNumber 45 |}
           eq_refl).
Defined.

Section Restart.

Variable questions : list Question.

Lemma same_session_rendered (st1 st2 : State) (c : Control) :
  same_session st1 st2 → rendered questions st1 c = rendered questions st2 c.
Proof.
  intros (Hi & Hr & Hc & Ha & Hs & _). unfold rendered, screen.
  by rewrite Hc, Ha, Hs.
Qed.

Lemma same_session_handle (st1 st2 : State) (c : Control) :
  same_session st1 st2 → rendered questions st1 c = true →
  match handle questions c st1, handle questions c st2 with
  | Returned st1', Returned st2' => same_session st1' st2'
  | IllTyped, IllTyped => True
  | _, _ => False
  end.
Proof.
  intros Hsame Hrendered. pose proof Hsame as (Hi & Hr & Hc & Ha & Hs & Hg).
  destruct c; simpl.
  - unfold handleSubmitAnswer, currentQuestion. rewrite <- Hi, <- Ha.
    destruct (currentAnswer st1) eqn:Hanswer; try done;
      (destruct (questions !! currentIndex st1) as [q|]; [|done]); simpl;
      (destruct (checkAnswer q _) as [grade|]; [|done]); simpl;
      unfold same_session; simpl; by rewrite Hi, Hr, Hc.
  - assert (showFeedback st1 = true) as Hshown.
    { unfold rendered in Hrendered. by destruct (screen questions st1). }
    unfold handleNextQuestion, currentQuestion. rewrite <- Hi.
    destruct (questions !! currentIndex st1) as [q|]; [|done]. simpl.
    rewrite <- Hr, <- Ha, <- (Hg Hshown).
    destruct (_ <? _); unfold same_session; simpl; rewrite <- ?Hc, <- ?Hs;
      split_and!; done.
  - unfold same_session. simpl. split_and!; done.
  - unfold same_session. simpl. split_and!; done.
Qed.

Lemma same_session_play (script : list Control) (st1 st2 : State) :
  same_session st1 st2 →
  match play questions script st1, play questions script st2 with
  | Some st1', Some st2' => same_session st1' st2'
  | None, None => True
  | _, _ => False
  end.
Proof.
  revert st1 st2. induction script as [|c script IH]; intros st1 st2 Hsame.
  - done.
  - simpl. rewrite <- (same_session_rendered st1 st2 c Hsame).
    destruct (rendered questions st1 c) eqn:Hrendered; [|done].
    pose proof (same_session_handle st1 st2 c Hsame Hrendered) as Hhandle.
    destruct (handle questions c st1), (handle questions c st2); try done.
    by apply IH.
Qed.

End Restart.

(** X13 (handleRestart).  [handleRestart] leaves the grade of the last
    check in place, but that grade is never used: after Try Again every
    sequence of interactions goes as it goes on a fresh test, with the same
    records, the same score and the same verdict, or is impossible in
    both. *)
Theorem restart_is_fresh (node : option PassageNode) (questions : list Question)
    (st : State) (script : list Control) :
  match play questions script (handleRestart st),
        play questions script initial with
  | Some st1, Some st2 =>
      same_session st1 st2
      ∧ finalScore questions st1 = finalScore questions st2
      ∧ passed node questions st1 = passed node questions st2
  | None, None => True
  | _, _ => False
  end.
Proof.
  assert (same_session (handleRestart st) initial) as Hsame
    by (unfold same_session; simpl; split_and!; done).
  pose proof (same_session_play questions script _ _ Hsame) as Hplay.
  destruct (play questions script (handleRestart st)) as [st1|],
           (play questions script initial) as [st2|]; try done.
  destruct Hplay as (Hi & Hr & Hc & Ha & Hs & Hg).
  assert (finalScore questions st1 = finalScore questions st2) as Hscore
    by (unfold finalScore, correctAnswers; by rewrite Hr, Hc).
  split_and!; [done | done |]. unfold passed. by rewrite Hscore.
Qed.

(** ** The score of longer tests *)

Lemma percentage_near_spec (correct total : Z) :
  0 < total ≤ 100 → 0 ≤ correct ≤ total →
  ∃ score : Z,
    percentage correct total = Int score
    ∧ 0 ≤ score ≤ 100
    ∧ round_percent correct total - 1 ≤ score ≤ round_percent correct total
    ∧ (correct = total → score = 100)
    ∧ (correct = 0 → score = 0).
Proof.
  intros Htotal Hcorrect.
  destruct (percentage_checked_spec correct total Htotal Hcorrect)
    as [Hcell _].
  unfold percentage_near in Hcell.
  destruct (percentage correct total) as [score| |]; [|done..].
  exists score. split; [done|].
  repeat (apply andb_true_iff in Hcell as [Hcell ?]).
  repeat match goal with
         | H : (_ <=? _) = true |- _ => apply Z.leb_le in H
         | H : _ || _ = true |- _ => apply orb_true_iff in H
         end.
  split_and!; lia.
Qed.

(** X14 (finalScore, passed).  When a test of at most a hundred questions
    is complete, [finalScore] is a whole number from 0 to 100, equal to
    round(100 * correct / total) or one less; it is 100 when every answer is
    correct, and the test is then passed for every pass score up to 100; it
    is 0 when no answer is correct. *)
Theorem final_score_range (node : option PassageNode) (questions : list Question)
    (st : State) :
  reachable questions st →
  isComplete st = true →
  Z.of_nat (length questions) ≤ 100 →
  ∃ score : Z,
    finalScore questions st = Int score
    ∧ 0 ≤ score ≤ 100
    ∧ round_percent (correctAnswers st) (Z.of_nat (length questions)) - 1
      ≤ score
      ≤ round_percent (correctAnswers st) (Z.of_nat (length questions))
    ∧ (correctAnswers st = Z.of_nat (length questions) →
       score = 100
       ∧ (threshold node ≤ 100 → passed node questions st = true))
    ∧ (correctAnswers st = 0 → score = 0).
Proof.
  intros Hreach Hcomplete Htotal.
  pose proof (reachable_session_ok questions st Hreach) as Hok.
  unfold session_ok in Hok. rewrite Hcomplete in Hok. destruct Hok as [Hlen Hidx].
  pose proof (correctAnswers_bounds st) as Hbounds. rewrite Hlen in Hbounds.
  destruct (percentage_near_spec (correctAnswers st) (Z.of_nat (length questions)))
    as (score & Hscore & Hrange & Hnear & Hall & Hnone); [lia | lia |].
  exists score. rewrite finalScore_complete by done.
  split_and!; try done; try lia.
  intros Hperfect. split; [by apply Hall|]. intros Hthreshold.
  unfold passed. rewrite finalScore_complete, Hscore by done. simpl.
  apply Z.leb_le. rewrite (Hall Hperfect). done.
Qed.

Lemma three_of_three_complete :
  ∃ st : State,
    play Samples.three_questions MoreSamples.three_of_three initial = Some st
    ∧ isComplete st = true
    ∧ correctAnswers st = 3.
Proof. eexists. split_and!; reflexivity. Qed.

Lemma final_score_range_witness :
  ∃ st : State,
    play Samples.three_questions MoreSamples.three_of_three initial = Some st
    ∧ finalScore Samples.three_questions st = Int 100
    ∧ passed (Some (Samples.node_with 100)) Samples.three_questions st = true.
Proof.
  destruct three_of_three_complete as (st & Hplay & Hcomplete & Hcorrect).
  exists st. split; [done|].
  assert (reachable Samples.three_questions st) as Hreach
    by (by apply (play_reachable _ MoreSamples.three_of_three initial);
          [apply reachable_initial|]).
  destruct (final_score_range (Some (Samples.node_with 100))
              Samples.three_questions st Hreach Hcomplete)
    as (score & Hscore & _ & _ & Hall & _); [simpl; lia|].
  destruct (Hall Hcorrect) as [-> Hpass].
  split; [done|]. apply Hpass. simpl. lia.
Defined.

(** ** The dialog of a village *)


(** X15 (openEditDialog with handleSubmit).  Saving the edit dialog of a
    village sends no request exactly when the title, the capacity and the
    speed are those of the village, the svg field is its svg or empty when
    it has none, and the cost is its cost or the village is free; so saving
    the dialog as it opens sends nothing.  A request that is sent is an
    update of that village, which buildingsApi sends with PUT to
    /buildings/villages/ and the id, and it carries changed fields only. *)
Theorem edit_sends_changes (st : Villages.State) (village : Villages.Village.t)
    (values : Villages.VillageFormValues.t) :
  Villages.handleSubmit (VillageDialog.editing st village)
    (VillageDialog.openEditDialog village) = None
  ∧ (Villages.handleSubmit (VillageDialog.editing st village) values = None ↔
     Villages.VillageFormValues.title values = Villages.Village.title village
     ∧ Villages.VillageFormValues.treasure_capacity values
       = Villages.Village.treasure_capacity village
     ∧ Villages.VillageFormValues.speed_production_treasure values
       = Villages.Village.speed_production_treasure village
     ∧ (Villages.Village.cost village = 0
        ∨ Villages.VillageFormValues.cost values = Villages.Village.cost village)
     ∧ Villages.VillageFormValues.svg values
       = Some (default EmptyString
                 (Villages.nonempty (Villages.Village.svg village))))
  ∧ ∀ request : Villages.Request,
      Villages.handleSubmit (VillageDialog.editing st village) values
      = Some request →
      ∃ data : Villages.VillageUpdate.t,
        request = Villages.updateVillage (Villages.Village.id village) data
        ∧ BuildingsApi.method (BuildingsApi.call request) = BuildingsApi.PUT
        ∧ BuildingsApi.url (BuildingsApi.call request)
          = "/buildings/villages/"
            +:+ BuildingsApi.decimal_digits (Villages.Village.id village)
        ∧ BuildingsApi.body (BuildingsApi.call request) = BuildingsApi.update data
        ∧ (∀ title, Villages.VillageUpdate.title data = Some title →
             title = Villages.VillageFormValues.title values
             ∧ title ≠ Villages.Village.title village)
        ∧ (∀ capacity,
             Villages.VillageUpdate.treasure_capacity data = Some capacity →
             capacity = Villages.VillageFormValues.treasure_capacity values
             ∧ capacity ≠ Villages.Village.treasure_capacity village)
        ∧ (∀ speed,
             Villages.VillageUpdate.speed_production_treasure data = Some speed →
             speed = Villages.VillageFormValues.speed_production_treasure values
             ∧ speed ≠ Villages.Village.speed_production_treasure village)
        ∧ (∀ cost, Villages.VillageUpdate.cost data = Some cost →
             cost = Villages.VillageFormValues.cost values
             ∧ cost ≠ Villages.Village.cost village
             ∧ Villages.Village.cost village ≠ 0)
        ∧ (∀ svg, Villages.VillageUpdate.svg data = Some svg →
             svg = Villages.nonempty (Villages.VillageFormValues.svg values)
             ∧ Villages.VillageFormValues.svg values
               ≠ Some (default EmptyString
                         (Villages.nonempty (Villages.Village.svg village)))).
Proof.
  assert (∀ values' : Villages.VillageFormValues.t,
            Villages.handleSubmit (VillageDialog.editing st village) values' = None ↔
            Villages.VillageFormValues.title values' = Villages.Village.title village
            ∧ Villages.VillageFormValues.treasure_capacity values'
              = Villages.Village.treasure_capacity village
            ∧ Villages.VillageFormValues.speed_production_treasure values'
              = Villages.Village.speed_production_treasure village
            ∧ (Villages.Village.cost village = 0
               ∨ Villages.VillageFormValues.cost values'
                 = Villages.Village.cost village)
            ∧ Villages.VillageFormValues.svg values'
              = Some (default EmptyString
                        (Villages.nonempty (Villages.Village.svg village))))
    as Hnone.
  { intros values'. unfold Villages.handleSubmit, Villages.isFirstVillage,
      Villages.keys, Villages.changed. simpl.
    destruct (Z.eqb_spec (Villages.Village.cost village) 0) as [Hfree|Hcost];
      repeat case_decide; simpl; split; try done;
      try (intros (? & ? & ? & ? & ?); try done; intuition lia);
      try (intros _; split_and!; try done; auto). }
  split_and!.
  - apply Hnone. simpl. split_and!; auto.
  - apply Hnone.
  - unfold Villages.handleSubmit. simpl. case_match eqn:Hkeys; [|done].
    clear Hkeys. intros request [= <-]. eexists.
    do 4 (split; [reflexivity|]).
    simpl. unfold Villages.changed, Villages.isFirstVillage. simpl.
    split_and!; intros x; repeat case_decide; try done;
      try (intros [= <-]; split; [done|]; try congruence).
    destruct (Z.eqb_spec (Villages.Village.cost village) 0); [lia|].
    intros [= <-]. split_and!; [done | congruence | done].
Qed.
